(** * amqpy.transport: the frame transport of an AMQP 0.9.1 client

    A shallow embedding of [amqpy/transport.py].  The Python objects are
    modelled by explicit state passing:

    - an exception is a value of [Exc]; a call returns an [Outcome];
    - a socket is a record holding what the peer will do (the bytes it sends,
      what each successive receive or send call reports) and what it has
      observed so far (the bytes accepted, the number of calls issued);
    - a transport is a record with the attributes of [AbstractTransport];
      [connected] is a class attribute ([False]) shadowed by an instance
      attribute once [self.connected = ...] has run;
    - the operating system is a record of the descriptors that are open. *)

From stdpp Require Import gmap strings list.
From Stdlib Require Import ZArith.
From Stdlib.Strings Require Import Byte Ascii.

Set Warnings "-register-all".

Open Scope Z_scope.
Open Scope nat_scope.

(** ** Exceptions *)

Module Py.

(** The exception classes that reach this module.  [socket_error] is
    [socket.error], which Python 3 makes an alias of [OSError] (as is
    [IOError]); [SSLError] and [socket_timeout] are subclasses of it. *)
Inductive ExcClass : Type :=
| socket_error
| SSLError
| socket_timeout
| ValueError
| TypeError
| IndexError
| AttributeError
| UnexpectedFrame.

(** [Exc cls errno msg] is an instance whose [errno] attribute is [errno]
    (Python's [None] is [None]) and whose [str()] is [msg];
    [ExcOf cls arg] is [cls(arg)] for a single argument that is an
    exception or [None], as in [socket.error(last_err)]. *)
Inductive Exc : Type :=
| mkExc (cls : ExcClass) (errno : option Z) (msg : string)
| ExcOf (cls : ExcClass) (arg : option Exc).

Definition exc_class (e : Exc) : ExcClass :=
  match e with mkExc c _ _ => c | ExcOf c _ => c end.

Definition exc_errno (e : Exc) : option Z :=
  match e with mkExc _ n _ => n | ExcOf _ _ => None end.

Fixpoint str (e : Exc) : string :=
  match e with
  | mkExc _ _ m => m
  | ExcOf _ (Some a) => str a
  | ExcOf _ None => "None"
  end.

(** [isinstance(exc, (OSError, IOError, socket.error))] *)
Definition is_OSError (e : Exc) : bool :=
  match exc_class e with
  | socket_error | SSLError | socket_timeout => true
  | _ => false
  end.

(** [isinstance(exc, SSLError)] *)
Definition is_SSLError (e : Exc) : bool :=
  match exc_class e with SSLError => true | _ => false end.

(** [isinstance(exc, socket.timeout)] *)
Definition is_timeout (e : Exc) : bool :=
  match exc_class e with socket_timeout => true | _ => false end.

(** [code in codes], for [code] an [errno] attribute *)
Definition errno_in (code : option Z) (codes : list Z) : bool :=
  match code with
  | Some c => existsb (Z.eqb c) codes
  | None => false
  end.

(** [needle in hay] on strings *)
Definition contains (needle hay : string) : bool :=
  match String.index 0 needle hay with Some _ => true | None => false end.

(** [IOError(msg)] *)
Definition IOError (msg : string) : Exc := mkExc socket_error None msg.

(** What a call does: it returns, it raises, or it never comes back
    (the peer stays silent for ever on a blocking socket). *)
Inductive Outcome (A : Type) : Type :=
| Ret (a : A)
| Raise (e : Exc)
| Blocked.
Arguments Ret {A} a.
Arguments Raise {A} e.
Arguments Blocked {A}.

(** Values handed to [create_transport] as [ssl_opts]. *)
Inductive Val : Type :=
| VNone
| VBool (b : bool)
| VInt (z : Z)
| VStr (s : string)
| VList (l : list Val)
| VDict (d : list (string * Val)).

(** [isinstance(v, dict)] *)
Definition isinstance_dict (v : Val) : bool :=
  match v with VDict _ => true | _ => false end.

(** [hex(n)]: ["0x"] and the lowercase digits, no padding. *)
Definition hex_digit (d : N) : string :=
  String (match d with
          | 0 => "0" | 1 => "1" | 2 => "2" | 3 => "3" | 4 => "4" | 5 => "5"
          | 6 => "6" | 7 => "7" | 8 => "8" | 9 => "9" | 10 => "a" | 11 => "b"
          | 12 => "c" | 13 => "d" | 14 => "e" | _ => "f"
          end%N%char) "".

Fixpoint hex_digits (fuel : nat) (n : N) (acc : string) : string :=
  match fuel with
  | O => acc
  | S fuel' =>
      let acc' := hex_digit (n mod 16)%N +:+ acc in
      if (n / 16 =? 0)%N then acc' else hex_digits fuel' (n / 16)%N acc'
  end.

Definition hex (n : N) : string :=
  "0x" +:+ hex_digits (S (N.to_nat (N.log2 n))) n "".

End Py.
Import Py.

(** ** errno *)

(** The three codes of [errno] the module names (their Linux values). *)
Definition EAGAIN : Z := 11.
Definition EINTR : Z := 4.
Definition ENOENT : Z := 2.

Definition _UNAVAIL : list Z := [EAGAIN; EINTR; ENOENT].

Definition AMQP_PROTOCOL_HEADER : list byte :=
  [x41; x4d; x51; x50; x00; x00; x09; x01].

(** ** Sockets *)

Module Net.

(** One receive call on the descriptor: the kernel hands over at most [k]
    of the bytes the peer has sent (none at all is an orderly shutdown by
    the peer), or the call fails. *)
Inductive RecvStep : Type :=
| Deliver (k : nat)
| RecvFail (e : Exc).

(** One send call: the kernel (or the TLS layer) accepts at most [k] of
    the bytes offered, or the call fails. *)
Inductive SendStep : Type :=
| Accept (k : nat)
| SendFail (e : Exc).

Record Socket : Type := mkSocket {
  fd : nat;
  tls : bool;                   (* wrapped by [ssl.wrap_socket] *)
  inbound : list byte;          (* sent by the peer, not yet received *)
  recv_plan : list RecvStep;    (* what the next receive calls do *)
  send_plan : list SendStep;    (* what the next send calls do *)
  outbound : list byte;         (* accepted from us so far *)
  io_calls : nat                (* receive and send calls issued so far *)
}.

(** The socket after a receive call that took [n] bytes, or failed
    ([n = 0]), leaving [plan] for the calls to come. *)
Definition after_recv (s : Socket) (n : nat) (plan : list RecvStep) : Socket :=
  mkSocket (fd s) (tls s) (drop n (inbound s)) plan
           (send_plan s) (outbound s) (S (io_calls s)).

(** The socket after a send call that accepted [sent], or failed
    ([sent = []]), leaving [plan] for the calls to come. *)
Definition after_send (s : Socket) (sent : list byte) (plan : list SendStep) : Socket :=
  mkSocket (fd s) (tls s) (inbound s) (recv_plan s) plan
           (outbound s ++ sent) (S (io_calls s)).

Definition recv_step (s : Socket) (len : nat) : Outcome (list byte) * Socket :=
  match recv_plan s with
  | [] => (Blocked, s)
  | Deliver k :: plan =>
      let got := take (k `min` len) (inbound s) in
      (Ret got, after_recv s (length got) plan)
  | RecvFail e :: plan => (Raise e, after_recv s 0 plan)
  end.

(** [sock.recv_into(buffer, nbytes)] for a buffer of [buflen] bytes; the
    bytes returned are the ones the call stores at the start of the
    buffer, and their number is the call's result.

    A plain socket refuses a request larger than the buffer
    ([ValueError], before any system call) and takes [nbytes = 0] to mean
    the whole buffer.  A TLS socket clamps the request to the buffer and
    reports 0 for an empty buffer without reading. *)
Definition recv_into (s : Socket) (buflen nbytes : nat)
  : Outcome (list byte) * Socket :=
  if tls s then
    let len := if (nbytes =? 0) || (buflen <? nbytes) then buflen else nbytes in
    if len =? 0 then (Ret [], s) else recv_step s len
  else
    let len := if nbytes =? 0 then buflen else nbytes in
    if buflen <? len
    then (Raise (mkExc ValueError None "buffer too small for requested bytes"), s)
    else recv_step s len.

(** [sock.write(data)] of a TLS socket: one write, returning the number
    of bytes accepted. *)
Definition ssl_write (s : Socket) (data : list byte) : Outcome nat * Socket :=
  match send_plan s with
  | [] => (Blocked, s)
  | Accept k :: plan =>
      let n := k `min` length data in
      (Ret n, after_send s (take n data) plan)
  | SendFail e :: plan => (Raise e, after_send s [] plan)
  end.

(** [sock.sendall(data)]: the library's own loop over send calls, until
    every byte is accepted or a call fails. *)
Fixpoint sendall_loop (plan : list SendStep) (data sent : list byte) (calls : nat)
  : Outcome unit * (list SendStep * list byte * nat) :=
  match data with
  | [] => (Ret tt, (plan, sent, calls))
  | _ :: _ =>
      match plan with
      | [] => (Blocked, (plan, sent, calls))
      | Accept k :: plan' =>
          sendall_loop plan' (drop k data) (sent ++ take k data) (S calls)
      | SendFail e :: plan' => (Raise e, (plan', sent, S calls))
      end
  end.

Definition sendall (s : Socket) (data : list byte) : Outcome unit * Socket :=
  let '(r, (plan, sent, calls)) :=
    sendall_loop (send_plan s) data (outbound s) (io_calls s) in
  (r, mkSocket (fd s) (tls s) (inbound s) (recv_plan s) plan sent calls).

End Net.
Import Net.

(** ** The transport object *)

(** The two concrete classes. *)
Inductive TransportClass : Type :=
| TCPTransport
| SSLTransport.

Record Transport : Type := mkTransport {
  cls : TransportClass;
  ssl_opts : option Val;           (* set by [SSLTransport.__init__] only *)
  _rbuf : list byte;               (* [bytearray(buf_size)] *)
  sock : option Socket;            (* [None] is Python's [None] *)
  inst_connected : option bool     (* the instance attribute, once assigned *)
}.

(** [self.connected]: the instance attribute if there is one, else the
    class attribute [connected = False]. *)
Definition connected (t : Transport) : bool := default false (inst_connected t).

Definition set_sock (t : Transport) (s : option Socket) : Transport :=
  mkTransport (cls t) (ssl_opts t) (_rbuf t) s (inst_connected t).

Definition set_rbuf (t : Transport) (b : list byte) : Transport :=
  mkTransport (cls t) (ssl_opts t) b (sock t) (inst_connected t).

(** [self.connected = b] *)
Definition set_connected (t : Transport) (b : bool) : Transport :=
  mkTransport (cls t) (ssl_opts t) (_rbuf t) (sock t) (Some b).

(** [mview[:len(got)] = got] for [mview = memoryview(buf)[off:]]: what a
    receive into the view does to the buffer underneath. *)
Definition store_at (buf : list byte) (off : nat) (got : list byte) : list byte :=
  take off buf ++ got ++ drop (off + length got) buf.

(** ** The exact read *)

(** The loop of [_read].  [off] is where the view [mview] starts in
    [_rbuf] (every [mview = mview[bytes_read:]] moves it right), so
    [len(mview)] is [length (_rbuf t) - off].  Each turn of the loop that
    goes on to another one has used up a step of the socket's receive plan;
    [fuel] bounds the turns and [_read] supplies more than the plan holds. *)
Fixpoint _read_loop (fuel : nat) (t : Transport) (off to_read : nat)
    (initial : bool) (_errnos : list Z) : Outcome unit * Transport :=
  match to_read with
  | O => (Ret tt, t)
  | S _ =>
      match fuel with
      | O => (Blocked, t)
      | S fuel' =>
          match sock t with
          | None =>
              (Raise (mkExc AttributeError None
                        "'NoneType' object has no attribute 'recv_into'"), t)
          | Some s =>
              match recv_into s (length (_rbuf t) - off) to_read with
              | (Ret got, s') =>
                  let bytes_read := length got in
                  let t' := set_rbuf (set_sock t (Some s'))
                                     (store_at (_rbuf t) off got) in
                  if bytes_read =? 0
                  then (Raise (IOError "socket closed"), t')
                  else _read_loop fuel' t' (off + bytes_read)
                                  (to_read - bytes_read) initial _errnos
              | (Raise exc, s') =>
                  let t' := set_sock t (Some s') in
                  if is_OSError exc && (negb initial && errno_in (exc_errno exc) _errnos)
                  then _read_loop fuel' t' off to_read initial _errnos
                  else (Raise exc, t')
              | (Blocked, s') => (Blocked, set_sock t (Some s'))
              end
          end
      end
  end.

Definition plan_length (t : Transport) : nat :=
  match sock t with Some s => length (recv_plan s) | None => 0 end.

(** [AbstractTransport._read]; the view returned is [memoryview(_rbuf)[:n]]
    as it stands when the call returns. *)
Definition _read (t : Transport) (n : nat) (initial : bool) (_errnos : list Z)
  : Outcome (list byte) * Transport :=
  match _read_loop (S (plan_length t)) t 0 n initial _errnos with
  | (Ret _, t') => (Ret (take n (_rbuf t')), t')
  | (Raise e, t') => (Raise e, t')
  | (Blocked, t') => (Blocked, t')
  end.

(** The codes each class hands to [_read] as [_errnos]. *)
Definition read_errnos (c : TransportClass) : list Z :=
  match c with
  | SSLTransport => [ENOENT; EAGAIN; EINTR]
  | TCPTransport => [EAGAIN; EINTR]
  end.

(** [SSLTransport.read] and [TCPTransport.read] *)
Definition read (t : Transport) (n : nat) (initial : bool)
  : Outcome (list byte) * Transport :=
  match cls t with
  | SSLTransport => _read t n initial [ENOENT; EAGAIN; EINTR]
  | TCPTransport => _read t n initial [EAGAIN; EINTR]
  end.

(** ** Writing *)

(** The loop of [SSLTransport.write]; every turn uses up a step of the
    socket's send plan. *)
Fixpoint ssl_write_loop (fuel : nat) (s : Socket) (data : list byte)
  : Outcome unit * Socket :=
  match data with
  | [] => (Ret tt, s)
  | _ :: _ =>
      match fuel with
      | O => (Blocked, s)
      | S fuel' =>
          match ssl_write s data with
          | (Ret n, s') =>
              if n =? 0 then (Raise (IOError "Socket closed"), s')
              else ssl_write_loop fuel' s' (drop n data)
          | (Raise e, s') => (Raise e, s')
          | (Blocked, s') => (Blocked, s')
          end
      end
  end.

(** [SSLTransport.write] and [TCPTransport.write].  A socket that was not
    wrapped has no [write] attribute, nor has [None]. *)
Definition write (t : Transport) (data : list byte) : Outcome unit * Transport :=
  match cls t with
  | SSLTransport =>
      match sock t with
      | Some s =>
          if tls s then
            let '(r, s') := ssl_write_loop (S (length (send_plan s))) s data in
            (r, set_sock t (Some s'))
          else (Raise (IOError "Socket closed"), t)
      | None => (Raise (IOError "Socket closed"), t)
      end
  | TCPTransport =>
      match sock t with
      | Some s =>
          let '(r, s') := sendall s data in (r, set_sock t (Some s'))
      | None =>
          (Raise (mkExc AttributeError None
                    "'NoneType' object has no attribute 'sendall'"), t)
      end
  end.

(** ** Frames *)

Record Frame : Type := mkFrame { data : list byte }.

(** Modelled from the spec: [FrameType.END] of [amqpy.spec], the fixed
    terminator sentinel 0xCE. *)
Definition FrameType_END : N := 206.

Fixpoint be_uint (bs : list byte) (acc : N) : N :=
  match bs with
  | [] => acc
  | b :: bs' => be_uint bs' (acc * 256 + Byte.to_N b)%N
  end.

(** Modelled from the spec: the property [Frame.payload_size] of
    [amqpy.spec], the unsigned 32-bit big-endian payload length held in the
    four bytes that follow the 1-byte type and the 2-byte channel. *)
Definition payload_size (f : Frame) : nat :=
  N.to_nat (be_uint (take 4 (drop 3 (data f))) 0).

(** Modelled from the spec: [get_errno] of [amqpy.utils], the error code of
    an exception (its [errno] attribute). *)
Definition get_errno (exc : Exc) : option Z := exc_errno exc.

(** The [try] block of [read_frame]: the frame as accumulated and the
    value of [i_last_byte]. *)
Definition read_frame_body (t : Transport) : Outcome (Frame * N) * Transport :=
  let frame := mkFrame [] in
  match read t 7 true with
  | (Ret frame_header, t1) =>
      let frame := mkFrame (data frame ++ frame_header) in
      match read t1 (payload_size frame) false with
      | (Ret payload, t2) =>
          let frame := mkFrame (data frame ++ payload) in
          match read t2 1 false with
          | (Ret frame_terminator, t3) =>
              let frame := mkFrame (data frame ++ frame_terminator) in
              match frame_terminator with
              | b :: _ => (Ret (frame, Byte.to_N b), t3)
              | [] => (Raise (mkExc IndexError None "index out of range"), t3)
              end
          | (Raise e, t3) => (Raise e, t3)
          | (Blocked, t3) => (Blocked, t3)
          end
      | (Raise e, t2) => (Raise e, t2)
      | (Blocked, t2) => (Blocked, t2)
      end
  | (Raise e, t1) => (Raise e, t1)
  | (Blocked, t1) => (Blocked, t1)
  end.

Definition UnexpectedFrame_msg (i_last_byte : N) : string :=
  "Received " +:+ hex i_last_byte +:+ " while expecting 0xCE (FrameType.END)".

(** [AbstractTransport.read_frame], inside the frame lock. *)
Definition read_frame (t : Transport) : Outcome Frame * Transport :=
  match read_frame_body t with
  | (Ret (frame, i_last_byte), t') =>
      if (i_last_byte =? FrameType_END)%N
      then (Ret frame, t')
      else (Raise (mkExc UnexpectedFrame None (UnexpectedFrame_msg i_last_byte)), t')
  | (Raise exc, t') =>
      if is_OSError exc then
        if is_SSLError exc && contains "timed out" (str exc)
        then (Raise (mkExc socket_timeout None ""), t')
        else if negb (errno_in (get_errno exc) _UNAVAIL) && negb (is_timeout exc)
             then (Raise exc, set_connected t' false)
             else (Raise exc, t')
      else (Raise exc, t')
  | (Blocked, t') => (Blocked, t')
  end.

(** [AbstractTransport.write_frame], inside the frame lock. *)
Definition write_frame (t : Transport) (frame : Frame) : Outcome unit * Transport :=
  match write t (data frame) with
  | (Ret u, t') => (Ret u, t')
  | (Raise exc, t') =>
      if is_timeout exc then (Raise exc, t')
      else if is_OSError exc then
             if negb (errno_in (get_errno exc) _UNAVAIL)
             then (Raise exc, set_connected t' false)
             else (Raise exc, t')
           else (Raise exc, t')
  | (Blocked, t') => (Blocked, t')
  end.

(** ** Construction *)

(** The descriptors the process holds open.  A socket is named by the
    number it is given when it is created, in the order of creation; the
    number tells the sockets apart and says which of them are open.  It
    is not the number the kernel hands out (the lowest one that is free,
    so that the number of a closed socket comes back). *)
Record OS : Type := mkOS {
  next_fd : nat;
  open_fds : gset nat
}.

Definition close_fd (os : OS) (n : nat) : OS :=
  mkOS (next_fd os) (open_fds os ∖ {[n]}).

(** One entry of [socket.getaddrinfo(...)], with what the network does at
    that address: whether creating the socket, connecting, setting the two
    options and the TLS handshake fail, and how the peer then behaves. *)
Record Candidate : Type := mkCandidate {
  socket_err : option Exc;
  connect_err : option Exc;
  nodelay_err : option Exc;
  keepalive_err : option Exc;
  handshake_err : option Exc;
  peer_inbound : list byte;
  peer_recv_plan : list RecvStep;
  peer_send_plan : list SendStep
}.

(** [socket.socket(af, socktype, proto)], when it succeeds *)
Definition socket_socket (os : OS) (c : Candidate) : Socket * OS :=
  (mkSocket (next_fd os) false (peer_inbound c) (peer_recv_plan c)
            (peer_send_plan c) [] 0,
   mkOS (S (next_fd os)) (open_fds os ∪ {[next_fd os]})).

(** The [for res in socket.getaddrinfo(...)] loop.  Its result is how it
    ends (with [last_err], or raising), what [self.sock] is then (with, for
    the steps that follow, the entry the socket belongs to), and the
    descriptors.  [settimeout] only records the timeout on the socket
    object and is left out.  When [socket.socket] itself raises,
    [self.sock] is still [None] in the handler, whose [self.sock.close()]
    then raises [AttributeError]. *)
Fixpoint connect_loop (addrinfo : list Candidate) (os : OS) (last_err : option Exc)
  : Outcome (option Exc) * option (Socket * Candidate) * OS :=
  match addrinfo with
  | [] => (Ret last_err, None, os)
  | res :: rest =>
      match socket_err res with
      | Some exc =>
          if is_OSError exc
          then (Raise (mkExc AttributeError None
                         "'NoneType' object has no attribute 'close'"), None, os)
          else (Raise exc, None, os)
      | None =>
          let '(s, os1) := socket_socket os res in
          match connect_err res with
          | None => (Ret last_err, Some (s, res), os1)
          | Some exc =>
              if is_OSError exc
              then connect_loop rest (close_fd os1 (fd s)) (Some exc)
              else (Raise exc, Some (s, res), os1)
          end
      end
  end.

(** [_setup_transport]: nothing for TCP; for TLS
    [self.sock = ssl.wrap_socket(self.sock, **self.ssl_opts)].  A failed
    handshake closes the descriptor inside the library before it raises. *)
Definition _setup_transport (t : Transport) (res : Candidate) (os : OS)
  : Outcome unit * Transport * OS :=
  match cls t with
  | TCPTransport => (Ret tt, t, os)
  | SSLTransport =>
      match ssl_opts t with
      | Some (VDict _) =>
          match sock t with
          | Some s =>
              match handshake_err res with
              | None =>
                  (Ret tt,
                   set_sock t (Some (mkSocket (fd s) true (inbound s) (recv_plan s)
                                              (send_plan s) (outbound s) (io_calls s))),
                   os)
              | Some exc => (Raise exc, t, close_fd os (fd s))
              end
          | None =>
              (Raise (mkExc AttributeError None
                        "'NoneType' object has no attribute 'fileno'"), t, os)
          end
      | _ =>
          (Raise (mkExc TypeError None
                    "argument after ** must be a mapping"), t, os)
      end
  end.

(** The body of the second [try] of [__init__]; [settimeout(None)] only
    clears the timeout recorded on the socket object and is left out. *)
Definition setup_body (t : Transport) (res : Candidate) (os : OS)
  : Outcome unit * Transport * OS :=
  match nodelay_err res with
  | Some exc => (Raise exc, t, os)
  | None =>
      match keepalive_err res with
      | Some exc => (Raise exc, t, os)
      | None =>
          match _setup_transport t res os with
          | (Ret _, t1, os1) =>
              let '(r, t2) := write t1 AMQP_PROTOCOL_HEADER in (r, t2, os1)
          | other => other
          end
      end
  end.

(** The object at the start of [__init__]: [_rbuf = bytearray(buf_size)],
    [sock = None], and no [connected] attribute of its own yet. *)
Definition new_transport (c : TransportClass) (opts : option Val) (buf_size : nat)
  : Transport :=
  mkTransport c opts (replicate buf_size x00) None None.

(** [AbstractTransport.__init__], with [self.ssl_opts] already stored when
    the class is [SSLTransport].  The result is the outcome of the call,
    the object as the call leaves it, and the descriptors left open. *)
Definition __init__ (c : TransportClass) (opts : option Val) (buf_size : nat)
    (addrinfo : list Candidate) (os : OS) : Outcome unit * Transport * OS :=
  let self := new_transport c opts buf_size in
  match connect_loop addrinfo os None with
  | (Ret last_err, None, os1) =>
      (Raise (ExcOf socket_error last_err), self, os1)
  | (Ret _, Some (s, res), os1) =>
      let self := set_sock self (Some s) in
      match setup_body self res os1 with
      | (Ret _, self, os2) => (Ret tt, set_connected self true, os2)
      | (Raise exc, self, os2) =>
          if is_OSError exc then
            if negb (errno_in (get_errno exc) _UNAVAIL)
            then (Raise exc, set_connected self false, os2)
            else (Raise exc, self, os2)
          else (Raise exc, self, os2)
      | (Blocked, self, os2) => (Blocked, self, os2)
      end
  | (Raise exc, cur, os1) => (Raise exc, set_sock self (fst <$> cur), os1)
  | (Blocked, cur, os1) => (Blocked, set_sock self (fst <$> cur), os1)
  end.

(** [AbstractTransport.close]; [shutdown_err] is what
    [sock.shutdown(socket.SHUT_RDWR)] raises, if it does. *)
Definition close (t : Transport) (shutdown_err : option Exc) (os : OS)
  : Outcome unit * Transport * OS :=
  match sock t with
  | Some s =>
      match shutdown_err with
      | Some exc => (Raise exc, t, os)
      | None =>
          (Ret tt, set_connected (set_sock t None) false, close_fd os (fd s))
      end
  | None => (Ret tt, set_connected t false, os)
  end.

(** [create_transport(host, port, connect_timeout, frame_max, ssl_opts)] *)
Definition create_transport (addrinfo : list Candidate) (os : OS)
    (frame_max : nat) (opts : Val) : Outcome unit * Transport * OS :=
  if isinstance_dict opts
  then __init__ SSLTransport (Some opts) frame_max addrinfo os
  else __init__ TCPTransport None frame_max addrinfo os.

(** ** The frame lock *)

Module Sync.

(** The two methods decorated with [@synchronized(...)]. *)
Inductive Method : Type :=
| m_read_frame
| m_write_frame.

(** The attribute each decorator names. *)
Definition lock_name (m : Method) : string :=
  match m with
  | m_read_frame => "_frame_lock"
  | m_write_frame => "_frame_lock"
  end.

(** The [Lock] attributes of one transport ([true] is locked) and the
    threads that are inside a decorated method. *)
Record State : Type := mkState {
  locks : gmap string bool;
  inside : gmap nat Method
}.

(** After [__init__]: the one lock it creates, unlocked; no thread
    inside. *)
Definition init : State := mkState {[ "_frame_lock" := false ]} ∅.

(** Modelled from the spec: the decorator [synchronized] of
    [amqpy.concurrency], a mutual-exclusion discipline: the wrapper takes
    the lock named by the decorator before the method body runs and holds
    it until the body is left.  [enter] is the acquisition by thread
    [tid]; it is [None] while the thread has to wait. *)
Definition enter (tid : nat) (m : Method) (st : State) : option State :=
  match inside st !! tid with
  | Some _ => None
  | None =>
      match locks st !! lock_name m with
      | Some false =>
          Some (mkState (<[lock_name m := true]> (locks st))
                        (<[tid := m]> (inside st)))
      | _ => None
      end
  end.

(** The release when thread [tid] leaves the method body. *)
Definition leave (tid : nat) (st : State) : option State :=
  match inside st !! tid with
  | Some m =>
      Some (mkState (<[lock_name m := false]> (locks st))
                    (delete tid (inside st)))
  | None => None
  end.

Inductive step : State -> State -> Prop :=
| step_enter tid m st st' : enter tid m st = Some st' -> step st st'
| step_leave tid st st' : leave tid st = Some st' -> step st st'.

Inductive reachable : State -> Prop :=
| reach_init : reachable init
| reach_step st st' : reachable st -> step st st' -> reachable st'.

(** The lock is taken exactly when a thread is inside, and then only that
    thread is. *)
Definition frame_lock_inv (st : State) : Prop :=
  (locks st !! "_frame_lock" = Some false /\ inside st = ∅) \/
  (locks st !! "_frame_lock" = Some true /\
   exists tid m, inside st = {[ tid := m ]}).

(** Thread 0 is reading a frame. *)
Definition reading : State :=
  mkState {[ "_frame_lock" := true ]} {[ 0 := m_read_frame ]}.

End Sync.

(** ** Observations on a transport *)

(** The bytes the peer has sent that the transport has not received yet. *)
Definition inbound_of (t : Transport) : list byte :=
  match sock t with Some s => inbound s | None => [] end.

(** The bytes the peer has accepted from the transport. *)
Definition outbound_of (t : Transport) : list byte :=
  match sock t with Some s => outbound s | None => [] end.

(** The send steps the socket still has in store. *)
Definition send_plan_of (t : Transport) : list SendStep :=
  match sock t with Some s => send_plan s | None => [] end.

(** A send step that accepts at least one byte. *)
Definition accepting (st : SendStep) : Prop :=
  match st with Accept k => 0 < k | SendFail _ => False end.

(** The receive and send calls issued on the transport's socket. *)
Definition io_calls_of (t : Transport) : nat :=
  match sock t with Some s => io_calls s | None => 0 end.

(** The transport with its [connected] attribute replaced. *)
Definition with_connected (t : Transport) (c : option bool) : Transport :=
  mkTransport (cls t) (ssl_opts t) (_rbuf t) (sock t) c.

(** The error [read_frame] raises for a terminator [b] other than 0xCE. *)
Definition unexpected_frame (b : byte) : Exc :=
  mkExc UnexpectedFrame None (UnexpectedFrame_msg (Byte.to_N b)).

(** [raise socket.timeout()] *)
Definition fresh_timeout : Exc := mkExc socket_timeout None "".

(** The code of [exc] is one of [_UNAVAIL]. *)
Definition unavail (exc : Exc) : bool := errno_in (get_errno exc) _UNAVAIL.

(** An [SSLError] whose text says the operation timed out. *)
Definition ssl_timed_out (exc : Exc) : bool :=
  is_SSLError exc && contains "timed out" (str exc).

(** ** Candidates *)

(** The socket for the candidate is created and its connect fails with an
    OS error. *)
Definition refuses (res : Candidate) : Prop :=
  socket_err res = None /\
  exists exc, connect_err res = Some exc /\ is_OSError exc = true.

(** The socket for the candidate is created and its connect succeeds. *)
Definition accepts (res : Candidate) : Prop :=
  socket_err res = None /\ connect_err res = None.

(** The connect error of the last candidate of [tried], or [before] when
    none was tried. *)
Definition last_connect_err (tried : list Candidate) (before : option Exc)
  : option Exc :=
  match last tried with
  | Some res => connect_err res
  | None => before
  end.

(** The descriptors after [n] sockets were opened and closed again. *)
Fixpoint after_refusals (os : OS) (n : nat) : OS :=
  match n with
  | O => os
  | S n' =>
      after_refusals
        (close_fd (mkOS (S (next_fd os)) (open_fds os ∪ {[next_fd os]}))
                  (next_fd os)) n'
  end.

(** The static part of the transport's socket: its descriptor and whether
    it is a TLS socket. *)
Definition sock_id (t : Transport) : option (nat * bool) :=
  match sock t with Some s => Some (fd s, tls s) | None => None end.

(** A receive step that hands over at least one byte. *)
Definition delivering (st : RecvStep) : Prop :=
  match st with Deliver k => 0 < k | RecvFail _ => False end.

(** ** Sample runs *)

Module Sample.

Definition eintr : Exc := mkExc socket_error (Some EINTR) "Interrupted system call".
Definition econnreset : Exc :=
  mkExc socket_error (Some 104%Z) "Connection reset by peer".

(** A heartbeat-like frame on channel 1 with a two-byte payload, followed
    by the first byte of the next frame. *)
Definition wire : list byte :=
  [x08; x00; x01; x00; x00; x00; x02; xaa; xbb; xce; x01].

(** The same bytes with a wrong terminator. *)
Definition bad_wire : list byte :=
  [x08; x00; x01; x00; x00; x00; x02; xaa; xbb; x0a; x01].

(** A peer whose bytes arrive in pieces, with an interrupted call in the
    middle of the payload. *)
Definition pieces : list RecvStep :=
  [Deliver 3; Deliver 100; Deliver 1; RecvFail eintr; Deliver 5; Deliver 1].

Definition tcp (inb : list byte) (plan : list RecvStep) (sends : list SendStep)
  : Transport :=
  mkTransport TCPTransport None (replicate 16 x00)
              (Some (mkSocket 3 false inb plan sends [] 0)) (Some true).

Definition ssl (inb : list byte) (plan : list RecvStep) (sends : list SendStep)
  : Transport :=
  mkTransport SSLTransport (Some (VDict [])) (replicate 16 x00)
              (Some (mkSocket 3 true inb plan sends [] 0)) (Some true).

Definition good : Transport := tcp wire pieces [].
Definition bad : Transport := tcp bad_wire pieces [].

(** A peer that has shut the connection down: every receive reports no
    byte. *)
Definition closed : Transport := tcp [] [Deliver 0; Deliver 0; Deliver 0] [].

(** A server that takes the connection and the protocol header. *)
Definition server : Candidate :=
  mkCandidate None None None None None [] [] [Accept 8].

Definition econnrefused : Exc :=
  mkExc socket_error (Some 111%Z) "Connection refused".

(** An address where nothing listens. *)
Definition nobody : Candidate :=
  mkCandidate None (Some econnrefused) None None None [] [] [].


(** An address of a family the host cannot open a socket for. *)
Definition unsupported : Candidate :=
  mkCandidate (Some (mkExc socket_error (Some 97%Z)
                       "Address family not supported by protocol"))
              None None None None [] [] [Accept 8].

(** A process with the three standard descriptors. *)
Definition os0 : OS := mkOS 3 ∅.

Definition read_timed_out : Exc :=
  mkExc SSLError None "The read operation timed out".

End Sample.

(** ** The rest of the class *)

(** [AbstractTransport.__del__].  [socket_alive] says whether the module
    global [socket] is still there (it may be gone at interpreter
    shutdown); [shutdown_err] is what [sock.shutdown] raises inside
    [close], if it does.  The bare [except] swallows whatever [close]
    raises and the [finally] drops the socket.

    [self.sock = None] takes away the transport's reference to the socket
    object.  [finalised] says whether the runtime then finalises that
    object, which closes its descriptor: it does at once when the
    transport held the last reference, and does not while something else
    still refers to the socket. *)
Definition __del__ (t : Transport) (socket_alive : bool)
    (shutdown_err : option Exc) (finalised : bool) (os : OS) : Transport * OS :=
  let '(t1, os1) :=
    if socket_alive
    then let '(_, t', os') := close t shutdown_err os in (t', os')
    else (t, os) in
  (set_sock t1 None,
   match sock t1 with
   | Some s => if finalised then close_fd os1 (fd s) else os1
   | None => os1
   end).

(** ** Vocabulary of the further properties *)

(** The receive steps the socket still has in store. *)
Definition recv_plan_of (t : Transport) : list RecvStep :=
  match sock t with Some s => recv_plan s | None => [] end.

(** A frame image in the wire format: 7 header bytes, the payload the
    header announces, the terminator 0xCE. *)
Definition complete (f : Frame) : Prop :=
  exists hdr payload,
    data f = hdr ++ payload ++ [xce] /\
    length hdr = 7 /\
    length payload = payload_size (mkFrame hdr).

(** A receive step that either hands over at least one byte or fails with
    an OS error whose code is in [errnos]. *)
Definition patient (errnos : list Z) (st : RecvStep) : Prop :=
  match st with
  | Deliver k => 0 < k
  | RecvFail e => is_OSError e = true /\ errno_in (exc_errno e) errnos = true
  end.

(** The number of steps of a plan that deliver. *)
Fixpoint deliveries (plan : list RecvStep) : nat :=
  match plan with
  | [] => 0
  | Deliver _ :: plan' => S (deliveries plan')
  | RecvFail _ :: plan' => deliveries plan'
  end.

(** A peer that takes [n] more bytes, at least one with every send call. *)
Fixpoint takes (plan : list SendStep) (n : nat) : bool :=
  match n, plan with
  | O, _ => true
  | _, Accept k :: plan' => (0 <? k) && takes plan' (n - k)
  | _, _ => false
  end.

(** The error of an attribute looked up on [None]. *)
Definition no_attribute (name : string) : Exc :=
  mkExc AttributeError None
        ("'NoneType' object has no attribute '" +:+ name +:+ "'").

(** ** Further sample runs *)

Module Scene.

(** A heartbeat frame: channel 0, no payload. *)
Definition heartbeat : list byte :=
  [x08; x00; x00; x00; x00; x00; x00; xce].

(** The frame of [Sample.wire] followed by a heartbeat. *)
Definition two_frames : Transport :=
  Sample.tcp (take 10 Sample.wire ++ heartbeat)
             [Deliver 100; Deliver 100; Deliver 100;
              Deliver 100; Deliver 100; Deliver 100] [].

(** The frame of [Sample.wire]. *)
Definition frame : Frame := mkFrame (take 10 Sample.wire).

(** A writer whose peer takes the bytes in two pieces. *)
Definition writer : Transport := Sample.tcp [] [] [Accept 4; Accept 100].

(** A reader whose peer has sent [inb] and hands it over three bytes at a
    time, for at most twelve calls. *)
Definition reader (inb : list byte) : Transport :=
  Sample.tcp inb (replicate 12 (Deliver 3)) [].

(** A header that announces a payload of 256 bytes, to a reader with a
    buffer of 16. *)
Definition oversized : Transport :=
  Sample.tcp [x01; x00; x01; x00; x00; x01; x00; xaa; xbb]
             [Deliver 100; Deliver 100] [].

(** A transport with a frame to read and a peer that takes what is
    written. *)
Definition duplex : Transport :=
  Sample.tcp Sample.wire (replicate 12 (Deliver 3)) [Accept 4; Accept 100].

(** A server that takes the connection and the protocol header, and has
    a byte to say. *)
Definition greeter : Candidate :=
  mkCandidate None None None None None [x41] [Deliver 1] [Accept 8].

(** A server that takes the connection and the protocol header, but
    speaks no TLS. *)
Definition plain_only : Candidate :=
  mkCandidate None None None None
              (Some (mkExc SSLError None "wrong version number"))
              [] [] [Accept 3; Accept 5].

End Scene.

(** What receiving depends on in a socket, and in a transport. *)
Definition recv_side (s : Socket) : bool * list byte * list RecvStep :=
  (tls s, inbound s, recv_plan s).

Definition recv_view (t : Transport)
  : TransportClass * list byte * option (bool * list byte * list RecvStep) :=
  (cls t, _rbuf t, recv_side <$> sock t).

(** What the outcome of sending depends on. *)
Definition send_view (t : Transport)
  : TransportClass * option (bool * list SendStep) :=
  (cls t, (fun s => (tls s, send_plan s)) <$> sock t).

(** * Properties *)

(** ** Receiving *)

Lemma take_drop_length {A} m (l : list A) :
  take m l ++ drop (length (take m l)) l = l.
Proof.
  rewrite length_take. destruct (Nat.le_gt_cases m (length l)).
  - rewrite Nat.min_l by lia. apply take_drop.
  - rewrite Nat.min_r by lia. rewrite take_ge by lia.
    rewrite drop_all. apply app_nil_r.
Qed.

Lemma recv_step_ret s len got s' :
  recv_step s len = (Ret got, s') ->
  length got <= len /\
  inbound s = got ++ inbound s' /\
  S (length (recv_plan s')) = length (recv_plan s) /\
  io_calls s' = S (io_calls s) /\
  fd s' = fd s /\ tls s' = tls s.
Proof.
  unfold recv_step. destruct (recv_plan s) as [|[k|e] plan] eqn:Hp; try discriminate.
  intros [= <- <-]. cbn.
  rewrite take_drop_length. rewrite length_take. repeat split; lia.
Qed.

Lemma recv_step_raise s len e s' :
  recv_step s len = (Raise e, s') ->
  recv_plan s = RecvFail e :: recv_plan s' /\
  inbound s' = inbound s /\
  io_calls s' = S (io_calls s) /\
  fd s' = fd s /\ tls s' = tls s.
Proof.
  unfold recv_step. destruct (recv_plan s) as [|[k|e0] plan] eqn:Hp; try discriminate.
  intros [= <- <-]. cbn. repeat split; reflexivity.
Qed.

Lemma recv_step_blocked s len s' :
  recv_step s len = (Blocked, s') -> s' = s /\ recv_plan s = [].
Proof.
  unfold recv_step. destruct (recv_plan s) as [|[k|e0] plan] eqn:Hp; try discriminate.
  intros [= <-]. split; reflexivity.
Qed.

(** A receive never stores more than was asked for, nor more than the
    view can hold. *)
Lemma recv_into_ret s buflen nbytes got s' :
  0 < nbytes ->
  recv_into s buflen nbytes = (Ret got, s') ->
  length got <= nbytes /\ length got <= buflen /\
  inbound s = got ++ inbound s' /\
  (length got = 0 \/ S (length (recv_plan s')) = length (recv_plan s)) /\
  length (recv_plan s') <= length (recv_plan s).
Proof.
  intros Hn. unfold recv_into.
  destruct (Nat.eqb_spec nbytes 0) as [->|_]; [lia|]. cbn [orb].
  destruct (tls s).
  - destruct (Nat.ltb_spec buflen nbytes).
    + destruct (Nat.eqb_spec buflen 0).
      * intros [= <- <-]. cbn. repeat split; lia.
      * intros H'. apply recv_step_ret in H' as (? & ? & ? & _). repeat split; try lia; auto.
    + destruct (Nat.eqb_spec nbytes 0); [lia|].
      intros H'. apply recv_step_ret in H' as (? & ? & ? & _). repeat split; try lia; auto.
  - destruct (Nat.ltb_spec buflen nbytes); [discriminate|].
    intros H'. apply recv_step_ret in H' as (? & ? & ? & _). repeat split; try lia; auto.
Qed.

Lemma recv_into_raise s buflen nbytes e s' :
  recv_into s buflen nbytes = (Raise e, s') ->
  is_OSError e = true ->
  recv_plan s = RecvFail e :: recv_plan s' /\ inbound s' = inbound s.
Proof.
  unfold recv_into. intros H He.
  destruct (tls s).
  - destruct (_ =? 0); [discriminate|].
    apply recv_step_raise in H as (? & ? & _). auto.
  - destruct (_ <? _).
    + injection H as <- <-. discriminate.
    + apply recv_step_raise in H as (? & ? & _). auto.
Qed.

Lemma recv_into_blocked s buflen nbytes s' :
  recv_into s buflen nbytes = (Blocked, s') -> s' = s /\ recv_plan s = [].
Proof.
  unfold recv_into. intros H.
  destruct (tls s).
  - destruct (_ =? 0); [discriminate|]. eapply recv_step_blocked; eauto.
  - destruct (_ <? _); [discriminate|]. eapply recv_step_blocked; eauto.
Qed.

Lemma length_store_at buf off got :
  off + length got <= length buf -> length (store_at buf off got) = length buf.
Proof.
  intros H. unfold store_at. rewrite !length_app, length_take, length_drop. lia.
Qed.

Lemma store_at_nil buf off : store_at buf off [] = buf.
Proof. unfold store_at. cbn. rewrite Nat.add_0_r. apply take_drop. Qed.

(** Storing [a] and then [b] right behind it is storing [a ++ b]. *)
Lemma store_at_app buf off a b :
  off + length a <= length buf ->
  store_at (store_at buf off a) (off + length a) b = store_at buf off (a ++ b).
Proof.
  intros H. unfold store_at.
  assert (Hp : length (take off buf) = off) by (rewrite length_take; lia).
  set (p := take off buf) in *. set (r := drop (off + length a) buf).
  rewrite (app_assoc p a r).
  rewrite take_app_length' by (rewrite length_app; lia).
  rewrite (drop_app_add' (p ++ a) r (off + length a) (length b))
    by (rewrite length_app; lia).
  subst r. rewrite drop_drop, length_app, <- !app_assoc.
  now rewrite Nat.add_assoc.
Qed.

(** What a read loop that comes back has done: it has taken exactly
    [to_read] bytes off the front of what the peer sent and has stored
    them in the buffer from [off] on, which the buffer had room for. *)
Lemma _read_loop_ret fuel : forall t off to_read initial errnos t',
  off <= length (_rbuf t) ->
  _read_loop fuel t off to_read initial errnos = (Ret tt, t') ->
  off + to_read <= length (_rbuf t) /\
  exists got,
    length got = to_read /\
    inbound_of t = got ++ inbound_of t' /\
    _rbuf t' = store_at (_rbuf t) off got.
Proof.
  induction fuel as [|fuel IH]; intros t off to_read initial errnos t' Hoff H.
  - destruct to_read; [|discriminate]. injection H as <-.
    split; [lia|]. exists []. now rewrite store_at_nil.
  - destruct to_read as [|m].
    { injection H as <-. split; [lia|]. exists []. now rewrite store_at_nil. }
    cbn [_read_loop] in H. unfold inbound_of at 1.
    destruct (sock t) as [s|] eqn:Hs; [|discriminate].
    destruct (recv_into s (length (_rbuf t) - off) (S m)) as [[got| exc|] s'] eqn:Hr;
      [| |discriminate].
    + apply recv_into_ret in Hr as (Hle1 & Hle2 & Hin & _); [|lia].
      destruct (Nat.eqb_spec (length got) 0) as [|Hpos]; [discriminate|].
      apply IH in H.
      2:{ cbn. rewrite length_store_at; lia. }
      unfold inbound_of at 1 in H. cbn [_rbuf set_rbuf set_sock sock] in H.
      rewrite length_store_at in H by lia.
      destruct H as (Hb & got2 & Hlen & Hin2 & Hbuf).
      split; [lia|]. exists (got ++ got2).
      rewrite length_app, <- app_assoc. repeat split.
      * lia.
      * rewrite Hin. f_equal. exact Hin2.
      * rewrite Hbuf. apply store_at_app. lia.
    + destruct (is_OSError exc) eqn:Hos; [|discriminate].
      destruct (negb initial && errno_in (exc_errno exc) errnos); [|discriminate].
      cbn [andb] in H. apply recv_into_raise in Hr as (_ & Hin); [|assumption].
      apply IH in H; [|exact Hoff]. cbn in H.
      destruct H as (Hb & got & Hlen & Hin2 & Hbuf).
      split; [exact Hb|]. exists got. rewrite <- Hin. auto.
Qed.

(** A read loop that has more fuel than the receive plan has steps gives
    up only when the plan is used up: the fuel never runs out first. *)
Lemma _read_loop_blocked fuel : forall t off to_read initial errnos t',
  plan_length t < fuel ->
  _read_loop fuel t off to_read initial errnos = (Blocked, t') ->
  plan_length t' = 0.
Proof.
  induction fuel as [|fuel IH]; intros t off to_read initial errnos t' Hf H; [lia|].
  destruct to_read as [|m]; [discriminate|].
  cbn [_read_loop] in H. unfold plan_length in Hf.
  destruct (sock t) as [s|] eqn:Hs; [|discriminate].
  destruct (recv_into s (length (_rbuf t) - off) (S m)) as [[got| exc|] s'] eqn:Hr.
  - apply recv_into_ret in Hr as (_ & _ & _ & Hstep & _); [|lia].
    destruct (Nat.eqb_spec (length got) 0) as [|Hpos]; [discriminate|].
    apply IH in H; [exact H|]. unfold plan_length. cbn. lia.
  - destruct (is_OSError exc) eqn:Hos; [|discriminate].
    destruct (negb initial && errno_in (exc_errno exc) errnos); [|discriminate].
    cbn [andb] in H. apply recv_into_raise in Hr as (Hp & _); [|assumption].
    apply IH in H; [exact H|]. unfold plan_length. cbn.
    rewrite Hp in Hf. cbn in Hf. lia.
  - apply recv_into_blocked in Hr as (-> & Hp). injection H as <-.
    unfold plan_length. cbn. now rewrite Hp.
Qed.

(** More fuel than the plan has steps changes nothing. *)
Lemma _read_loop_fuel fuel : forall fuel' t off to_read initial errnos,
  plan_length t < fuel -> plan_length t < fuel' ->
  _read_loop fuel t off to_read initial errnos =
  _read_loop fuel' t off to_read initial errnos.
Proof.
  induction fuel as [|fuel IH]; intros fuel' t off to_read initial errnos Hf Hf'; [lia|].
  destruct fuel' as [|fuel']; [lia|].
  destruct to_read as [|m]; [reflexivity|].
  cbn [_read_loop]. unfold plan_length in Hf, Hf'.
  destruct (sock t) as [s|] eqn:Hs; [|reflexivity].
  destruct (recv_into s (length (_rbuf t) - off) (S m)) as [[got| exc|] s'] eqn:Hr;
    [| |reflexivity].
  - apply recv_into_ret in Hr as (_ & _ & _ & Hstep & _); [|lia].
    destruct (Nat.eqb_spec (length got) 0) as [|Hpos]; [reflexivity|].
    apply IH; unfold plan_length; cbn; lia.
  - destruct (is_OSError exc) eqn:Hos; [|reflexivity].
    destruct (negb initial && errno_in (exc_errno exc) errnos); [|reflexivity].
    cbn [andb]. apply recv_into_raise in Hr as (Hp & _); [|assumption].
    rewrite Hp in Hf, Hf'. cbn in Hf, Hf'.
    apply IH; unfold plan_length; cbn; lia.
Qed.

(** A peer that has sent the bytes wanted and hands over at least one of
    them per call gets the loop to return, with no more receive calls than
    bytes. *)
Lemma _read_loop_progress fuel : forall t s off to_read initial errnos,
  sock t = Some s ->
  Forall delivering (recv_plan s) ->
  to_read <= length (recv_plan s) ->
  to_read <= length (inbound s) ->
  off + to_read <= length (_rbuf t) ->
  length (recv_plan s) < fuel ->
  exists t' s',
    _read_loop fuel t off to_read initial errnos = (Ret tt, t') /\
    sock t' = Some s' /\
    Forall delivering (recv_plan s') /\
    length (recv_plan s) <= length (recv_plan s') + to_read /\
    length (_rbuf t') = length (_rbuf t) /\
    cls t' = cls t.
Proof.
  induction fuel as [|fuel IH]; intros t s off to_read initial errnos
    Hs Hplan Hsteps Hin Hfit Hf; [lia|].
  destruct to_read as [|m].
  { exists t, s. repeat split; auto. lia. }
  cbn [_read_loop]. rewrite Hs.
  destruct (recv_plan s) as [|[k|e] plan] eqn:Hp; cbn [length] in *; [lia| |].
  2:{ apply Forall_cons in Hplan as [[] _]. }
  apply Forall_cons in Hplan as [Hk Hplan]. cbn in Hk.
  assert (Hrecv : recv_into s (length (_rbuf t) - off) (S m) =
                  recv_step s (S m)).
  { unfold recv_into. cbn [Nat.eqb orb].
    destruct (Nat.ltb_spec (length (_rbuf t) - off) (S m)); [lia|].
    now destruct (tls s). }
  rewrite Hrecv. unfold recv_step. rewrite Hp. cbv zeta.
  set (got := take (k `min` S m) (inbound s)).
  assert (Hgot : length got = k `min` S m) by (unfold got; rewrite length_take; lia).
  destruct (Nat.eqb_spec (length got) 0) as [|_]; [lia|].
  assert (Hbuf : length (store_at (_rbuf t) off got) = length (_rbuf t))
    by (apply length_store_at; lia).
  destruct (IH (set_rbuf (set_sock t (Some (after_recv s (length got) plan)))
                         (store_at (_rbuf t) off got))
               (after_recv s (length got) plan)
               (off + length got) (S m - length got) initial errnos)
    as (t' & s' & Hl & Hs' & Hd & Hn & Hb & Hc);
    [ reflexivity
    | exact Hplan
    | cbn; lia
    | cbn; rewrite length_drop; lia
    | cbn [_rbuf set_rbuf]; lia
    | cbn; lia
    | ].
  exists t', s'. cbn in Hn, Hb, Hc. repeat split; auto; lia.
Qed.

Lemma read_unfold t n initial :
  read t n initial = _read t n initial (read_errnos (cls t)).
Proof. unfold read, read_errnos. now destruct (cls t). Qed.

(** What [_read] gives for any set of codes to retry on. *)
Lemma _read_spec t n initial errnos :
  match _read t n initial errnos with
  | (Ret view, t') =>
      length view = n /\
      n <= length (_rbuf t) /\
      view = take n (inbound_of t) /\
      inbound_of t' = drop n (inbound_of t)
  | (Raise _, _) => True
  | (Blocked, t') => plan_length t' = 0
  end.
Proof.
  unfold _read.
  destruct (_read_loop _ t 0 n initial _) as [[[]|e|] t'] eqn:H; [|exact I|].
  - apply _read_loop_ret in H as (Hb & got & Hlen & Hin & Hbuf); [|lia].
    cbn in Hb. rewrite Hbuf, Hin. unfold store_at.
    rewrite take_0, app_nil_l.
    rewrite !take_app_length', drop_app_length' by auto. auto.
  - eapply _read_loop_blocked; [|exact H]. lia.
Qed.

(** C1. For every [n] the exact read [read(n, initial)] of either class
    returns a view of exactly [n] bytes, or raises, or is still waiting for
    a peer that has nothing more to say; it never returns fewer than [n]
    bytes.  The bytes of the view are the first [n] bytes the peer had
    sent, received by successive calls into the unfilled rest of the
    buffer, and they are gone from what is left to receive. *)
Theorem read_exact (t : Transport) (n : nat) (initial : bool) :
  match read t n initial with
  | (Ret view, t') =>
      length view = n /\
      n <= length (_rbuf t) /\
      view = take n (inbound_of t) /\
      inbound_of t' = drop n (inbound_of t)
  | (Raise _, _) => True
  | (Blocked, t') => plan_length t' = 0
  end.
Proof. rewrite read_unfold. apply _read_spec. Qed.

Lemma read_exact_witness :
  exists view t',
    read Sample.good 7 true = (Ret view, t') /\
    length view = 7 /\ view = take 7 Sample.wire.
Proof.
  pose proof (read_exact Sample.good 7 true) as H.
  destruct (read Sample.good 7 true) as [[view|e|] t'] eqn:E.
  - exists view, t'. split; [reflexivity|]. split; apply H.
  - vm_compute in E. discriminate.
  - vm_compute in E. discriminate.
Defined.

(** The exact read returns whenever the peer has sent [n] bytes, hands over
    at least one per call, and the buffer holds [n] bytes; what the peer
    has in store after it is what it had, less the [n] bytes and at most
    [n] calls. *)
Lemma read_progress t s n initial :
  sock t = Some s ->
  Forall delivering (recv_plan s) ->
  n <= length (recv_plan s) ->
  n <= length (inbound s) ->
  n <= length (_rbuf t) ->
  exists t' s',
    read t n initial = (Ret (take n (inbound s)), t') /\
    sock t' = Some s' /\
    inbound s' = drop n (inbound s) /\
    Forall delivering (recv_plan s') /\
    length (recv_plan s) <= length (recv_plan s') + n /\
    length (_rbuf t') = length (_rbuf t).
Proof.
  intros Hs Hplan Hsteps Hin Hfit.
  pose proof (_read_spec t n initial (read_errnos (cls t))) as He.
  rewrite read_unfold. unfold _read in *.
  destruct (_read_loop_progress (S (plan_length t)) t s 0 n initial
              (read_errnos (cls t)) Hs Hplan Hsteps Hin Hfit)
    as (t' & s' & Hl & Hs' & Hd & Hn & Hb & _).
  { unfold plan_length. rewrite Hs. lia. }
  rewrite Hl in *. destruct He as (_ & _ & -> & Hdrop).
  unfold inbound_of in *. rewrite Hs, Hs' in *. exists t', s'. auto 10.
Qed.

(** ** The [connected] attribute is neither read nor written below the
       frame operations *)

Lemma with_connected_id t : with_connected t (inst_connected t) = t.
Proof. now destruct t. Qed.

Lemma _read_loop_with_connected fuel : forall t off to_read initial errnos c,
  _read_loop fuel (with_connected t c) off to_read initial errnos =
  let '(r, t') := _read_loop fuel t off to_read initial errnos in
  (r, with_connected t' c).
Proof.
  induction fuel as [|fuel IH]; intros t off to_read initial errnos c.
  - now destruct to_read.
  - destruct to_read as [|m]; [reflexivity|].
    cbn [_read_loop with_connected sock _rbuf].
    destruct (sock t) as [s|]; [|reflexivity].
    destruct (recv_into s _ _) as [[got|exc|] s']; [| |reflexivity].
    + destruct (length got =? 0); [reflexivity|].
      exact (IH (set_rbuf (set_sock t (Some s')) (store_at (_rbuf t) off got))
                _ _ _ _ c).
    + destruct (_ && _); [|reflexivity].
      exact (IH (set_sock t (Some s')) _ _ _ _ c).
Qed.

Lemma read_with_connected t n initial c :
  read (with_connected t c) n initial =
  let '(r, t') := read t n initial in (r, with_connected t' c).
Proof.
  rewrite !read_unfold. unfold _read.
  change (plan_length (with_connected t c)) with (plan_length t).
  change (cls (with_connected t c)) with (cls t).
  rewrite _read_loop_with_connected.
  now destruct (_read_loop _ t 0 n initial _) as [[[]|e|] t'].
Qed.

(** ** Reading a frame *)

Lemma to_N_END b : (Byte.to_N b =? FrameType_END)%N = Byte.eqb b xce.
Proof. now destruct b. Qed.

Lemma read_ret_length t n initial view t' :
  read t n initial = (Ret view, t') -> length view = n.
Proof.
  intros H. pose proof (_read_spec t n initial (read_errnos (cls t))) as He.
  rewrite <- read_unfold, H in He. tauto.
Qed.


Example read_frame_good :
  exists t',
    read_frame Sample.good = (Ret (mkFrame (take 10 Sample.wire)), t') /\
    inbound_of t' = [x01] /\ connected t' = true.
Proof. eexists. vm_compute. repeat split. Qed.

Example read_frame_bad :
  exists t',
    read_frame Sample.bad =
      (Raise (mkExc UnexpectedFrame None
                "Received 0xa while expecting 0xCE (FrameType.END)"), t').
Proof. eexists. vm_compute. reflexivity. Qed.

(** A frame that the peer has sent whole, on a connection that hands over
    at least a byte per call, is returned, and what follows it on the wire
    is left for the next call. *)
Lemma read_frame_returns t s hdr payload rest :
  sock t = Some s ->
  inbound s = hdr ++ payload ++ xce :: rest ->
  length hdr = 7 ->
  length payload = payload_size (mkFrame hdr) ->
  7 <= length (_rbuf t) -> length payload <= length (_rbuf t) ->
  Forall delivering (recv_plan s) ->
  7 + length payload + 1 <= length (recv_plan s) ->
  exists t',
    read_frame t = (Ret (mkFrame (hdr ++ payload ++ [xce])), t') /\
    inbound_of t' = rest.
Proof.
  intros Hs Hin Lh Lp B7 Bp Hplan Hsteps.
  destruct (read_progress t s 7 true Hs Hplan) as (t1 & s1 & R1 & Hs1 & I1 & P1 & N1 & B1);
    [lia | rewrite Hin, !length_app; cbn [length]; lia | lia |].
  rewrite Hin, take_app_length' in R1 by auto.
  rewrite Hin, drop_app_length' in I1 by auto.
  destruct (read_progress t1 s1 (length payload) false Hs1 P1)
    as (t2 & s2 & R2 & Hs2 & I2 & P2 & N2 & B2);
    [lia | rewrite I1, length_app; lia | lia |].
  rewrite I1, take_app_length' in R2 by auto.
  rewrite I1, drop_app_length' in I2 by auto.
  destruct (read_progress t2 s2 1 false Hs2 P2)
    as (t3 & s3 & R3 & Hs3 & I3 & P3 & N3 & B3);
    [lia | rewrite I2; cbn [length]; lia | lia |].
  rewrite I2 in R3, I3. cbn in R3, I3.
  exists t3. split; [|unfold inbound_of; now rewrite Hs3].
  unfold read_frame, read_frame_body. cbn [data app].
  rewrite R1, <- Lp, R2, R3, <- app_assoc. reflexivity.
Qed.


(** ** Transient errors during a read *)

(** One turn of the loop of [_read] whose receive call fails with [exc]. *)
Lemma _read_loop_error_step fuel t s exc rest off to_read initial errnos :
  sock t = Some s ->
  recv_plan s = RecvFail exc :: rest ->
  0 < to_read -> to_read <= length (_rbuf t) - off ->
  _read_loop (S fuel) t off to_read initial errnos =
    if is_OSError exc && (negb initial && errno_in (exc_errno exc) errnos)
    then _read_loop fuel (set_sock t (Some (after_recv s 0 rest))) off to_read
                    initial errnos
    else (Raise exc, set_sock t (Some (after_recv s 0 rest))).
Proof.
  intros Hs Hp Hpos Hfit. destruct to_read as [|m]; [lia|].
  cbn [_read_loop]. rewrite Hs. unfold recv_into.
  assert (Hstep : forall len, recv_step s len = (Raise exc, after_recv s 0 rest)).
  { intros len. unfold recv_step. now rewrite Hp. }
  destruct (tls s).
  - cbn [Nat.eqb orb].
    destruct (Nat.ltb_spec (length (_rbuf t) - off) (S m)); [lia|].
    cbn [Nat.eqb]. now rewrite Hstep.
  - cbn [Nat.eqb].
    destruct (Nat.ltb_spec (length (_rbuf t) - off) (S m)); [lia|].
    now rewrite Hstep.
Qed.



(** The same at the first receive of [read(n, initial)]. *)
Lemma read_first_error t s exc rest n initial :
  sock t = Some s ->
  recv_plan s = RecvFail exc :: rest ->
  0 < n -> n <= length (_rbuf t) ->
  read t n initial =
    if is_OSError exc && (negb initial && errno_in (exc_errno exc) (read_errnos (cls t)))
    then read (set_sock t (Some (after_recv s 0 rest))) n initial
    else (Raise exc, set_sock t (Some (after_recv s 0 rest))).
Proof.
  intros Hs Hp Hpos Hfit. rewrite !read_unfold. unfold _read.
  assert (Hl : plan_length t = S (length rest)).
  { unfold plan_length. now rewrite Hs, Hp. }
  rewrite Hl.
  rewrite (_read_loop_error_step _ t s exc rest 0 n initial _ Hs Hp Hpos)
    by (rewrite Nat.sub_0_r; exact Hfit).
  destruct (is_OSError exc && _); reflexivity.
Qed.


(** ** Writing over TLS *)

(** One turn of the loop of [SSLTransport.write] whose [write] call
    accepts a part of the bytes: the loop goes on with the rest. *)
Lemma ssl_write_loop_accept fuel s k rest d data :
  send_plan s = Accept k :: rest -> 0 < k ->
  ssl_write_loop (S fuel) s (d :: data) =
  ssl_write_loop fuel (after_send s (take k (d :: data)) rest) (drop k (d :: data)).
Proof.
  intros Hp Hk. cbn [ssl_write_loop]. unfold ssl_write. rewrite Hp.
  cbv zeta. destruct (Nat.eqb_spec (k `min` length (d :: data)) 0) as [E|_].
  { cbn [length] in E. lia. }
  destruct (Nat.le_gt_cases k (length (d :: data))).
  - now rewrite Nat.min_l by lia.
  - rewrite Nat.min_r by lia. now rewrite !take_ge, !drop_ge by lia.
Qed.

(** One turn whose [write] call accepts nothing. *)
Lemma ssl_write_loop_zero fuel s rest d data :
  send_plan s = Accept 0 :: rest ->
  ssl_write_loop (S fuel) s (d :: data) =
  (Raise (IOError "Socket closed"), after_send s [] rest).
Proof.
  intros Hp. cbn [ssl_write_loop]. unfold ssl_write. now rewrite Hp.
Qed.

(** What the loop has handed to the peer when it stops: everything if it
    returns, a proper part if it raises; and it waits only for a peer that
    has stopped taking bytes. *)
Lemma ssl_write_loop_spec fuel : forall s data,
  length (send_plan s) < fuel ->
  match ssl_write_loop fuel s data with
  | (Ret _, s') => outbound s' = outbound s ++ data
  | (Raise _, s') =>
      exists k, k < length data /\ outbound s' = outbound s ++ take k data
  | (Blocked, s') => send_plan s' = []
  end.
Proof.
  induction fuel as [|fuel IH]; intros s data Hf; [lia|].
  destruct data as [|d data]; [cbn; now rewrite app_nil_r|].
  cbn [ssl_write_loop]. unfold ssl_write.
  destruct (send_plan s) as [|[k|e] rest] eqn:Hp.
  - exact Hp.
  - cbv zeta. destruct (Nat.eqb_spec (k `min` length (d :: data)) 0) as [E|E].
    + exists 0. split; [cbn; lia|]. cbn [after_send outbound]. now rewrite E.
    + set (n := k `min` length (d :: data)) in *.
      specialize (IH (after_send s (take n (d :: data)) rest) (drop n (d :: data))).
      cbn [after_send send_plan outbound] in IH. cbn [length] in Hf.
      destruct (ssl_write_loop fuel _ _) as [[[]|e|] s'].
      * rewrite IH by lia. now rewrite <- app_assoc, take_drop.
      * destruct IH as (j & Hj & Ho); [lia|]. rewrite length_drop in Hj.
        exists (n + j). split; [lia|].
        rewrite Ho, <- app_assoc. f_equal. apply take_take_drop.
      * apply IH. lia.
  - exists 0. split; [cbn; lia|]. cbn. reflexivity.
Qed.

(** A peer that accepts at least a byte per call, for as many calls as
    there are bytes, gets the loop to return. *)
Lemma ssl_write_loop_progress fuel : forall s data,
  Forall accepting (send_plan s) ->
  length data <= length (send_plan s) ->
  length (send_plan s) < fuel ->
  exists s', ssl_write_loop fuel s data = (Ret tt, s').
Proof.
  induction fuel as [|fuel IH]; intros s data Hacc Hlen Hf; [lia|].
  destruct data as [|d data]; [now eexists|].
  destruct (send_plan s) as [|[k|e] rest] eqn:Hp; cbn [length] in *; [lia| |].
  - apply Forall_cons in Hacc as [Hk Hrest]. cbn in Hk.
    rewrite (ssl_write_loop_accept fuel s k rest d data Hp Hk).
    apply IH; cbn [after_send send_plan]; [exact Hrest| |lia].
    rewrite length_drop. cbn [length]. lia.
  - apply Forall_cons in Hacc as [[] _].
Qed.

(** C8. The TLS [write] sends every byte of its argument before it
    returns.  A [write] call of the socket that accepts only [k] of the
    bytes is followed by another for the bytes after the first [k], and so
    on until none is left; a call that accepts nothing makes [write] raise
    [IOError('Socket closed')].  When [write] raises, a proper part of the
    bytes has gone out and no success is reported.  A peer that accepts at
    least one byte per call, however few, gets the whole sequence. *)
Theorem ssl_write_complete (t : Transport) (s : Socket) (data : list byte) :
  cls t = SSLTransport -> sock t = Some s -> tls s = true ->
  match write t data with
  | (Ret _, t') => outbound_of t' = outbound s ++ data
  | (Raise _, t') =>
      exists k, k < length data /\ outbound_of t' = outbound s ++ take k data
  | (Blocked, t') => send_plan_of t' = []
  end /\
  (forall fuel k rest, send_plan s = Accept k :: rest -> 0 < k -> data <> [] ->
     ssl_write_loop (S fuel) s data =
     ssl_write_loop fuel (after_send s (take k data) rest) (drop k data)) /\
  (forall fuel rest, send_plan s = Accept 0 :: rest -> data <> [] ->
     ssl_write_loop (S fuel) s data =
     (Raise (IOError "Socket closed"), after_send s [] rest)) /\
  (Forall accepting (send_plan s) -> length data <= length (send_plan s) ->
     exists t', write t data = (Ret tt, t') /\
                outbound_of t' = outbound s ++ data).
Proof.
  intros Hc Hs Htls.
  assert (Hw : write t data =
               let '(r, s') := ssl_write_loop (S (length (send_plan s))) s data in
               (r, set_sock t (Some s'))).
  { unfold write. now rewrite Hc, Hs, Htls. }
  pose proof (ssl_write_loop_spec (S (length (send_plan s))) s data
                (Nat.lt_succ_diag_r _)) as Hspec.
  split; [|split; [|split]].
  - rewrite Hw. destruct (ssl_write_loop _ s data) as [[[]|e|] s']; exact Hspec.
  - intros fuel k rest Hp Hk Hd. destruct data as [|d data]; [congruence|].
    now apply ssl_write_loop_accept.
  - intros fuel rest Hp Hd. destruct data as [|d data]; [congruence|].
    now apply ssl_write_loop_zero.
  - intros Hacc Hlen.
    destruct (ssl_write_loop_progress (S (length (send_plan s))) s data
                Hacc Hlen (Nat.lt_succ_diag_r _)) as [s' Hl].
    rewrite Hw, Hl in *. eexists. split; [reflexivity|]. exact Hspec.
Qed.

(** A 40-byte image through a TLS layer that takes at most 16 bytes per
    call. *)
Example ssl_write_chunks :
  exists t',
    write (Sample.ssl [] [] [Accept 16; Accept 16; Accept 16])
          (replicate 40 xab) = (Ret tt, t') /\
    outbound_of t' = replicate 40 xab /\ io_calls_of t' = 3.
Proof. eexists. vm_compute. repeat split. Qed.

Lemma ssl_write_complete_witness :
  match write (Sample.ssl [] [] [Accept 16; Accept 16; Accept 16])
              (replicate 40 xab) with
  | (Ret _, t') => outbound_of t' = [] ++ replicate 40 xab
  | (Raise _, t') =>
      exists k, k < length (replicate 40 xab) /\
                outbound_of t' = [] ++ take k (replicate 40 xab)
  | (Blocked, t') => send_plan_of t' = []
  end.
Proof.
  exact (proj1 (ssl_write_complete
    (Sample.ssl [] [] [Accept 16; Accept 16; Accept 16])
    (mkSocket 3 true [] [] [Accept 16; Accept 16; Accept 16] [] 0)
    (replicate 40 xab) eq_refl eq_refl eq_refl)).
Defined.

(** ** Failures and the [connected] flag *)

Lemma write_with_connected t bytes c :
  write (with_connected t c) bytes =
  let '(r, t') := write t bytes in (r, with_connected t' c).
Proof.
  unfold write. cbn [with_connected cls sock].
  destruct (cls t), (sock t) as [s|]; try reflexivity.
  - now destruct (sendall s bytes).
  - destruct (tls s); [|reflexivity]. now destruct (ssl_write_loop _ s bytes).
Qed.

Lemma write_inst_connected t bytes r t' :
  write t bytes = (r, t') -> inst_connected t' = inst_connected t.
Proof.
  intros H. pose proof (write_with_connected t bytes (inst_connected t)) as Hc.
  rewrite with_connected_id, H in Hc. now injection Hc as ->.
Qed.

Lemma read_frame_body_with_connected t c :
  read_frame_body (with_connected t c) =
  let '(r, t') := read_frame_body t in (r, with_connected t' c).
Proof.
  unfold read_frame_body. rewrite read_with_connected.
  destruct (read t 7 true) as [[hdr|?|] t1]; try reflexivity.
  rewrite read_with_connected.
  destruct (read t1 _ false) as [[payload|?|] t2]; try reflexivity.
  rewrite read_with_connected.
  destruct (read t2 1 false) as [[[|b ?]|?|] t3]; reflexivity.
Qed.

Lemma read_frame_body_inst_connected t r t' :
  read_frame_body t = (r, t') -> inst_connected t' = inst_connected t.
Proof.
  intros H. pose proof (read_frame_body_with_connected t (inst_connected t)) as Hc.
  rewrite with_connected_id, H in Hc. now injection Hc as ->.
Qed.

(** How [write_frame] treats an error of [write]. *)
Lemma write_frame_raise t frame exc t1 :
  write t (data frame) = (Raise exc, t1) ->
  write_frame t frame =
    (Raise exc,
     if negb (is_timeout exc) && is_OSError exc && negb (unavail exc)
     then set_connected t1 false else t1).
Proof.
  intros H. unfold write_frame, unavail. rewrite H.
  destruct (is_timeout exc); [reflexivity|].
  destruct (is_OSError exc); [|reflexivity].
  now destruct (errno_in _ _).
Qed.

(** How [read_frame] treats an error of its three reads. *)
Lemma read_frame_raise t exc t1 :
  read_frame_body t = (Raise exc, t1) ->
  read_frame t =
    if is_OSError exc && ssl_timed_out exc then (Raise fresh_timeout, t1)
    else (Raise exc,
          if is_OSError exc && negb (unavail exc) && negb (is_timeout exc)
          then set_connected t1 false else t1).
Proof.
  intros H. unfold read_frame, unavail, ssl_timed_out. rewrite H.
  destruct (is_OSError exc); [|reflexivity]. cbn [andb].
  destruct (is_SSLError exc && _); [reflexivity|].
  now destruct (negb _ && negb _).
Qed.

(** C9. A socket timeout raised under [write_frame] is raised again as it
    is and the [connected] attribute stays as it was.  Under [read_frame],
    an [SSLError] whose text says "timed out" becomes a fresh socket
    timeout and a socket timeout is raised again as it is, and in both
    cases the attribute stays as it was.  Any other OS error whose code is
    not one of [_UNAVAIL] is raised again, by either operation, with
    [connected] set to false. *)
Theorem timeouts_keep_connected (t : Transport) :
  (forall frame exc t1,
      write t (data frame) = (Raise exc, t1) -> is_OSError exc = true ->
      exists t',
        write_frame t frame = (Raise exc, t') /\
        (is_timeout exc = true -> inst_connected t' = inst_connected t) /\
        (is_timeout exc = false -> unavail exc = false -> connected t' = false)) /\
  (forall exc t1,
      read_frame_body t = (Raise exc, t1) -> is_OSError exc = true ->
      exists exc' t',
        read_frame t = (Raise exc', t') /\
        (ssl_timed_out exc = true ->
           exc' = fresh_timeout /\ inst_connected t' = inst_connected t) /\
        (ssl_timed_out exc = false -> exc' = exc) /\
        (is_timeout exc = true ->
           exc' = exc /\ inst_connected t' = inst_connected t) /\
        (ssl_timed_out exc = false -> is_timeout exc = false ->
           unavail exc = false -> connected t' = false)).
Proof.
  split.
  - intros frame exc t1 H Hos.
    rewrite (write_frame_raise _ _ _ _ H), Hos.
    apply write_inst_connected in H.
    eexists. split; [reflexivity|]. split.
    + intros ->. exact H.
    + now intros -> ->.
  - intros exc t1 H Hos.
    rewrite (read_frame_raise _ _ _ H), Hos. cbn [andb].
    apply read_frame_body_inst_connected in H.
    destruct (ssl_timed_out exc) eqn:Hssl.
    + assert (Hnt : is_timeout exc = false).
      { unfold ssl_timed_out, is_SSLError, is_timeout in *.
        destruct (exc_class exc); try reflexivity; discriminate. }
      exists fresh_timeout, t1. split; [reflexivity|]. split; [auto|].
      split; [discriminate|]. split; [rewrite Hnt|]; discriminate.
    + eexists _, _. split; [reflexivity|]. split; [discriminate|].
      split; [reflexivity|]. split.
      * intros ->. rewrite andb_false_r. auto.
      * now intros _ -> ->.
Qed.

Lemma timeouts_keep_connected_witness :
  exists exc' t',
    read_frame (Sample.ssl [] [RecvFail Sample.read_timed_out] []) =
      (Raise exc', t') /\
    exc' = fresh_timeout /\ connected t' = true.
Proof.
  destruct (proj2 (timeouts_keep_connected
                     (Sample.ssl [] [RecvFail Sample.read_timed_out] []))
                  Sample.read_timed_out
                  (snd (read_frame_body
                          (Sample.ssl [] [RecvFail Sample.read_timed_out] [])))
                  eq_refl eq_refl) as (exc' & t' & Hr & Hssl & _).
  exists exc', t'. destruct (Hssl eq_refl) as [-> Hc].
  split; [exact Hr|]. split; [reflexivity|].
  unfold connected. now rewrite Hc.
Defined.

(** ** After a failure *)

Lemma read_frame_with_connected t c :
  fst (read_frame (with_connected t c)) = fst (read_frame t) /\
  sock (snd (read_frame (with_connected t c))) = sock (snd (read_frame t)).
Proof.
  unfold read_frame. rewrite read_frame_body_with_connected.
  destruct (read_frame_body t) as [[[fr i]|exc|] t']; cbn [fst snd].
  - now destruct (_ =? _)%N.
  - destruct (is_OSError exc); [|now split].
    destruct (_ && _); [now split|]. now destruct (_ && _).
  - now split.
Qed.

Lemma write_frame_with_connected t frame c :
  fst (write_frame (with_connected t c) frame) = fst (write_frame t frame) /\
  sock (snd (write_frame (with_connected t c) frame)) =
  sock (snd (write_frame t frame)).
Proof.
  unfold write_frame. rewrite write_with_connected.
  destruct (write t (data frame)) as [[u|exc|] t']; cbn [fst snd].
  - now split.
  - destruct (is_timeout exc); [now split|].
    destruct (is_OSError exc); [|now split]. now destruct (negb _).
  - now split.
Qed.

(** The error of [read_frame] is the error of its reads, unless that one
    is an OS error that the handler replaces. *)
Lemma read_frame_raise_inv t e t' :
  read_frame t = (Raise e, t') ->
  (exists b, e = unexpected_frame b /\ inst_connected t' = inst_connected t) \/
  (exists exc t1, read_frame_body t = (Raise exc, t1) /\
     read_frame t =
       if is_OSError exc && ssl_timed_out exc then (Raise fresh_timeout, t1)
       else (Raise exc,
             if is_OSError exc && negb (unavail exc) && negb (is_timeout exc)
             then set_connected t1 false else t1)).
Proof.
  intros H. destruct (read_frame_body t) as [[[fr i]|exc|] tb] eqn:Hb.
  - left. unfold read_frame in H. rewrite Hb in H.
    pose proof (read_frame_body_inst_connected _ _ _ Hb) as Hc.
    unfold read_frame_body in Hb.
    destruct (read t 7 true) as [[hdr|?|] t1]; try discriminate.
    destruct (read t1 _ false) as [[payload|?|] t2]; try discriminate.
    destruct (read t2 1 false) as [[[|b ?]|?|] t3]; try discriminate.
    injection Hb as <- <- <-.
    destruct (_ =? _)%N; [discriminate|]. injection H as <- <-.
    exists b. now split.
  - right. exists exc, tb. split; [reflexivity|]. now apply read_frame_raise.
  - unfold read_frame in H. rewrite Hb in H. discriminate.
Qed.

(** C4, as the code has it.  When [read_frame] fails because the peer has
    closed ([IOError('socket closed')]), or [write_frame] because a TLS
    write made no progress ([IOError('Socket closed')]), [connected] is
    false afterwards.  A frame-format error leaves the attribute as it was.
    Neither operation ever looks at the attribute: on a transport that is
    marked disconnected a call gives the same outcome, through the same
    socket calls, as on one that is marked connected. *)
Theorem connected_after_failure (t : Transport) :
  (forall t', read_frame t = (Raise (IOError "socket closed"), t') ->
              connected t' = false) /\
  (forall frame t', write_frame t frame = (Raise (IOError "Socket closed"), t') ->
              connected t' = false) /\
  (forall b t', read_frame t = (Raise (unexpected_frame b), t') ->
              inst_connected t' = inst_connected t) /\
  (forall c,
      fst (read_frame (with_connected t c)) = fst (read_frame t) /\
      sock (snd (read_frame (with_connected t c))) = sock (snd (read_frame t))) /\
  (forall frame c,
      fst (write_frame (with_connected t c) frame) = fst (write_frame t frame) /\
      sock (snd (write_frame (with_connected t c) frame)) =
      sock (snd (write_frame t frame))).
Proof.
  repeat apply conj.
  - intros t' H. destruct (read_frame_raise_inv _ _ _ H) as [(b & Hb & _)|(exc & t1 & _ & Hr)].
    + discriminate.
    + rewrite H in Hr.
      destruct (is_OSError exc && ssl_timed_out exc); [discriminate|].
      injection Hr as <- ->. reflexivity.
  - intros frame t' H. unfold write_frame in H.
    destruct (write t (data frame)) as [[u|exc|] t1]; try discriminate.
    destruct (is_timeout exc) eqn:Ht.
    { injection H as -> _. discriminate. }
    destruct (is_OSError exc) eqn:Ho.
    2:{ injection H as -> _. discriminate. }
    destruct (negb _) eqn:Hu; injection H as -> <-; [reflexivity|discriminate].
  - intros b t' H. destruct (read_frame_raise_inv _ _ _ H) as [(b' & _ & Hc)|(exc & t1 & Hb & Hr)].
    + exact Hc.
    + rewrite H in Hr. apply read_frame_body_inst_connected in Hb.
      destruct (is_OSError exc) eqn:Ho.
      * cbn [andb] in Hr. destruct (ssl_timed_out exc); [discriminate|].
        injection Hr as <- ->. discriminate.
      * cbn [andb] in Hr. now injection Hr as <- ->.
  - intros c. apply read_frame_with_connected.
  - intros frame c. apply write_frame_with_connected.
Qed.

(** C4 as stated fails twice.  A frame with a wrong terminator makes
    [read_frame] raise [UnexpectedFrame] and leaves [connected] true.  And
    after a peer-closed error has set [connected] to false, the next
    [read_frame] still goes to the socket: it issues another receive call
    and fails on what that call reports. *)
Lemma connected_not_enforced :
  (exists t',
      read_frame Sample.bad = (Raise (unexpected_frame x0a), t') /\
      connected t' = true) /\
  (exists t1 t2,
      read_frame Sample.closed = (Raise (IOError "socket closed"), t1) /\
      connected t1 = false /\
      read_frame t1 = (Raise (IOError "socket closed"), t2) /\
      io_calls_of t1 = 1 /\ io_calls_of t2 = 2).
Proof.
  split.
  - eexists. vm_compute. split; reflexivity.
  - eexists _, _. vm_compute. repeat split.
Qed.

Lemma connected_after_failure_witness :
  connected (snd (read_frame Sample.closed)) = false /\
  inst_connected (snd (read_frame Sample.bad)) = inst_connected Sample.bad.
Proof.
  split.
  - apply (proj1 (connected_after_failure Sample.closed)).
    vm_compute. reflexivity.
  - apply (proj1 (proj2 (proj2 (connected_after_failure Sample.bad))) x0a).
    vm_compute. reflexivity.
Defined.

(** ** The frame lock *)

Lemma lock_name_frame_lock m : Sync.lock_name m = "_frame_lock".
Proof. now destruct m. Qed.

Lemma enter_inv tid m st st' :
  Sync.enter tid m st = Some st' -> Sync.frame_lock_inv st -> Sync.frame_lock_inv st'.
Proof.
  unfold Sync.enter. rewrite lock_name_frame_lock.
  destruct (Sync.inside st !! tid) eqn:Hi; [discriminate|].
  destruct (Sync.locks st !! "_frame_lock") as [[]|] eqn:Hl; try discriminate.
  intros [= <-] [[_ He]|[Ht _]]; [|congruence].
  right. cbn. split; [apply lookup_insert_eq|].
  exists tid, m. now rewrite He.
Qed.

Lemma leave_inv tid st st' :
  Sync.leave tid st = Some st' -> Sync.frame_lock_inv st -> Sync.frame_lock_inv st'.
Proof.
  unfold Sync.leave. destruct (Sync.inside st !! tid) as [m|] eqn:Hi; [|discriminate].
  intros [= <-] [[_ He]|[_ (tid0 & m0 & He)]].
  - rewrite He in Hi. now rewrite lookup_empty in Hi.
  - rewrite He in Hi. apply lookup_singleton_Some in Hi as [-> ->].
    left. cbn. rewrite lock_name_frame_lock. split; [apply lookup_insert_eq|].
    rewrite He. apply delete_singleton_eq.
Qed.

Lemma reachable_inv st : Sync.reachable st -> Sync.frame_lock_inv st.
Proof.
  induction 1 as [|st st' _ IH Hstep].
  - left. split; [apply lookup_singleton_eq | reflexivity].
  - destruct Hstep as [tid m st st' He|tid st st' Hl].
    + eapply enter_inv; eauto.
    + eapply leave_inv; eauto.
Qed.

Lemma reading_reachable : Sync.reachable Sync.reading.
Proof.
  eapply Sync.reach_step; [apply Sync.reach_init|].
  apply (Sync.step_enter 0 Sync.m_read_frame). vm_compute. reflexivity.
Qed.

(** C3, as the code has it.  [read_frame] and [write_frame] are guarded by
    one and the same lock, [_frame_lock]: at any moment at most one thread
    is inside either of them, so two reads, two writes, and also a read and
    a write on the same transport exclude each other. *)
Theorem frame_lock_excludes (st : Sync.State) (t1 t2 : nat) (m1 m2 : Sync.Method) :
  Sync.reachable st ->
  Sync.inside st !! t1 = Some m1 ->
  Sync.inside st !! t2 = Some m2 ->
  t1 = t2 /\ Sync.lock_name m1 = Sync.lock_name m2.
Proof.
  intros Hr H1 H2. split; [|now rewrite !lock_name_frame_lock].
  destruct (reachable_inv st Hr) as [[_ He]|[_ (tid & m & He)]]; rewrite He in H1, H2.
  - now rewrite lookup_empty in H1.
  - apply lookup_singleton_Some in H1 as [<- _].
    now apply lookup_singleton_Some in H2 as [<- _].
Qed.

(** C3 as stated fails: there is one mutex, not two.  While thread 0 is
    inside [read_frame], thread 1 cannot get into [write_frame]; it can
    once thread 0 has left. *)
Lemma reader_excludes_writer :
  Sync.lock_name Sync.m_read_frame = Sync.lock_name Sync.m_write_frame /\
  Sync.enter 0 Sync.m_read_frame Sync.init = Some Sync.reading /\
  Sync.enter 1 Sync.m_write_frame Sync.reading = None /\
  (exists st, Sync.leave 0 Sync.reading = Some st /\
              is_Some (Sync.enter 1 Sync.m_write_frame st)).
Proof.
  split; [reflexivity|]. split; [|split].
  - vm_compute. reflexivity.
  - vm_compute. reflexivity.
  - eexists. split.
    + unfold Sync.leave, Sync.reading. cbn. rewrite lookup_singleton_eq. reflexivity.
    + unfold Sync.enter. cbn. rewrite delete_singleton_eq, lookup_empty.
      rewrite lookup_insert_eq. eauto.
Qed.

Lemma frame_lock_excludes_witness :
  0 = 0 /\ Sync.lock_name Sync.m_read_frame = Sync.lock_name Sync.m_read_frame.
Proof.
  apply (frame_lock_excludes Sync.reading 0 0 Sync.m_read_frame Sync.m_read_frame
           reading_reachable);
    apply lookup_singleton_eq.
Defined.

(** ** Connection establishment *)

Lemma after_refusals_spec n : forall os,
  next_fd (after_refusals os n) = next_fd os + n /\
  open_fds (after_refusals os n) ⊆ open_fds os.
Proof.
  induction n as [|n IH]; intros os; cbn [after_refusals].
  - split; [lia | reflexivity].
  - destruct (IH (close_fd (mkOS (S (next_fd os)) (open_fds os ∪ {[next_fd os]}))
                           (next_fd os))) as [Hn Ho].
    cbn in Hn, Ho. split; [lia|].
    intros x Hx. apply Ho in Hx. apply elem_of_difference in Hx as [Hx Hne].
    apply elem_of_union in Hx as [Hx|Hx]; [exact Hx | contradiction].
Qed.

Lemma last_connect_err_cons res tried before :
  last_connect_err (res :: tried) before =
  last_connect_err tried (connect_err res).
Proof.
  unfold last_connect_err. rewrite last_cons. now destruct (last tried).
Qed.

(** The loop goes through candidates that refuse: each gets a socket,
    which is closed again, and the error of the latest is kept. *)
Lemma connect_loop_refused pre : forall rest os before,
  Forall refuses pre ->
  connect_loop (pre ++ rest) os before =
  connect_loop rest (after_refusals os (length pre)) (last_connect_err pre before).
Proof.
  induction pre as [|res pre IH]; intros rest os before Hpre; [reflexivity|].
  apply Forall_cons in Hpre as [(Hsock & exc & Hconn & Hos) Hpre].
  rewrite last_connect_err_cons. cbn [app connect_loop length after_refusals].
  rewrite Hsock. cbn [socket_socket fd]. rewrite Hconn, Hos.
  now apply IH.
Qed.

(** It stops at a candidate that accepts, whatever comes after it. *)
Lemma connect_loop_accepted res rest os before :
  accepts res ->
  connect_loop (res :: rest) os before =
  (Ret before, Some (fst (socket_socket os res), res),
   snd (socket_socket os res)).
Proof. intros [Hsock Hconn]. cbn [connect_loop]. now rewrite Hsock, Hconn. Qed.

(** The socket the loop ends with is open. *)
Lemma connect_loop_open addrinfo : forall os before r s res os1,
  connect_loop addrinfo os before = (r, Some (s, res), os1) ->
  fd s ∈ open_fds os1 /\ tls s = false.
Proof.
  induction addrinfo as [|c rest IH]; intros os before r s res os1 H;
    [discriminate|].
  cbn [connect_loop] in H.
  destruct (socket_err c) as [exc|].
  { destruct (is_OSError exc); discriminate. }
  cbn [socket_socket] in H.
  assert (Hnew : forall r0,
    (r0, Some (mkSocket (next_fd os) false (peer_inbound c) (peer_recv_plan c)
                        (peer_send_plan c) [] 0, c),
     mkOS (S (next_fd os)) (open_fds os ∪ {[next_fd os]})) = (r, Some (s, res), os1) ->
    fd s ∈ open_fds os1 /\ tls s = false).
  { intros r0 [= _ <- _ <-]. cbn. split; [|reflexivity].
    apply elem_of_union_r, elem_of_singleton. reflexivity. }
  destruct (connect_err c) as [exc|]; [|now apply (Hnew (Ret before))].
  destruct (is_OSError exc); [eapply IH; eauto|now apply (Hnew (Raise exc))].
Qed.

(** ** The steps after the connect *)

Lemma ssl_write_loop_static fuel : forall s bytes r s',
  ssl_write_loop fuel s bytes = (r, s') -> fd s' = fd s /\ tls s' = tls s.
Proof.
  induction fuel as [|fuel IH]; intros s bytes r s' H.
  - destruct bytes; now injection H as <- <-.
  - destruct bytes as [|b bytes]; [now injection H as <- <-|].
    cbn [ssl_write_loop] in H. unfold ssl_write in H.
    destruct (send_plan s) as [|[k|e] plan]; try (now injection H as <- <-).
    cbv zeta in H. destruct (_ =? 0); [now injection H as <- <-|].
    apply IH in H. exact H.
Qed.

(** Writing leaves the socket's descriptor and kind, the class and the
    [connected] attribute alone. *)
Lemma write_static t bytes r t' :
  write t bytes = (r, t') ->
  sock_id t' = sock_id t /\ cls t' = cls t /\ ssl_opts t' = ssl_opts t.
Proof.
  unfold write, sock_id. destruct (cls t) eqn:Hc, (sock t) as [s|] eqn:Hs.
  - unfold sendall.
    destruct (sendall_loop _ _ _ _) as [r0 [[plan' sent'] calls']].
    intros [= <- <-]. cbn. repeat split; congruence.
  - intros [= <- <-]. rewrite Hs. repeat split; congruence.
  - destruct (tls s) eqn:Htls.
    + destruct (ssl_write_loop _ s bytes) as [r0 s0] eqn:Hl.
      apply ssl_write_loop_static in Hl as [Hfd Ht].
      intros [= <- <-]. cbn. repeat split; congruence.
    + intros [= <- <-]. rewrite Hs. repeat split; congruence.
  - intros [= <- <-]. rewrite Hs. repeat split; congruence.
Qed.

Ltac setup_done :=
  repeat split; auto; try congruence; try discriminate;
  try (intros [|]; congruence); try reflexivity;
  try (intros x Hx; apply elem_of_difference in Hx as [Hx _]; exact Hx); eauto.

(** The steps after the connect keep the transport on the same
    descriptor, open no descriptor, and do not touch [connected]; only a
    failed TLS handshake closes the descriptor, and only a TLS handshake
    makes the socket a TLS socket. *)
Lemma setup_body_spec t res os r t' os' :
  setup_body t res os = (r, t', os') ->
  fst <$> sock_id t' = fst <$> sock_id t /\
  cls t' = cls t /\
  ssl_opts t' = ssl_opts t /\
  inst_connected t' = inst_connected t /\
  open_fds os' ⊆ open_fds os /\
  (cls t = TCPTransport \/ handshake_err res = None -> os' = os) /\
  (cls t = TCPTransport -> sock_id t' = sock_id t) /\
  (cls t = SSLTransport -> r = Ret tt -> exists n, sock_id t' = Some (n, true)).
Proof.
  unfold setup_body.
  destruct (nodelay_err res) as [e|]; [intros [= <- <- <-]; setup_done|].
  destruct (keepalive_err res) as [e|]; [intros [= <- <- <-]; setup_done|].
  unfold _setup_transport. destruct (cls t) eqn:Hc.
  - destruct (write t AMQP_PROTOCOL_HEADER) as [r0 t2] eqn:Hw.
    pose proof (write_inst_connected _ _ _ _ Hw) as Hi.
    apply write_static in Hw as (Hid & Hcl & Hso).
    intros [= <- <- <-]. rewrite Hid. setup_done.
  - destruct (ssl_opts t) as [[| | | | |d]|] eqn:Hopts;
      try (cbn; intros [= <- <- <-]; setup_done).
    destruct (sock t) as [s|] eqn:Hs; [|cbn; intros [= <- <- <-]; setup_done].
    destruct (handshake_err res) as [e|] eqn:Hh.
    + cbn. intros [= <- <- <-]. cbn. setup_done.
    + set (t1 := set_sock t _).
      destruct (write t1 AMQP_PROTOCOL_HEADER) as [r0 t2] eqn:Hw.
      pose proof (write_inst_connected _ _ _ _ Hw) as Hi.
      apply write_static in Hw as (Hid & Hcl & Hso).
      intros [= <- <- <-]. rewrite Hid. unfold sock_id. subst t1.
      cbn in Hcl, Hso, Hi |- *. rewrite Hs. setup_done.
Qed.

(** What [__init__] does once the loop has connected [s] to [res]. *)
Lemma __init___connected c opts buf_size addrinfo os s res le os1 :
  connect_loop addrinfo os None = (Ret le, Some (s, res), os1) ->
  __init__ c opts buf_size addrinfo os =
    match setup_body (set_sock (new_transport c opts buf_size) (Some s)) res os1 with
    | (Ret _, self, os2) => (Ret tt, set_connected self true, os2)
    | (Raise exc, self, os2) =>
        (Raise exc,
         if is_OSError exc && negb (unavail exc)
         then set_connected self false else self, os2)
    | (Blocked, self, os2) => (Blocked, self, os2)
    end.
Proof.
  intros H. unfold __init__. rewrite H. cbv zeta.
  destruct (setup_body _ res os1) as [[[u|exc|] self] os2]; try reflexivity.
  unfold unavail. destruct (is_OSError exc); [|reflexivity].
  now destruct (negb _).
Qed.

(** X15. As long as the socket of every candidate that is tried can be
    created, the constructor goes through the candidates in order.  Each
    candidate whose connect fails with an OS error has its socket closed
    and its error remembered in place of the one before.  When all of
    them fail so, the constructor raises [socket.error] carrying the error
    of the last one, holds no socket and leaves no descriptor open that
    was not open before.  The first candidate that connects is the one
    the transport keeps: its descriptor is the only new one left open, and
    the candidates after it play no part. *)
Theorem connect_fallback (c : TransportClass) (opts : option Val) (buf_size : nat)
    (pre post : list Candidate) (os : OS) :
  Forall refuses pre ->
  (exists self os',
      __init__ c opts buf_size pre os =
        (Raise (ExcOf socket_error (last_connect_err pre None)), self, os') /\
      sock self = None /\
      open_fds os' ⊆ open_fds os) /\
  (forall res, accepts res ->
      exists s os1,
        connect_loop (pre ++ res :: post) os None =
          (Ret (last_connect_err pre None), Some (s, res), os1) /\
        fd s ∈ open_fds os1 /\
        open_fds os1 ⊆ open_fds os ∪ {[fd s]} /\
        __init__ c opts buf_size (pre ++ res :: post) os =
        __init__ c opts buf_size (pre ++ [res]) os /\
        let '(_, self, os') := __init__ c opts buf_size (pre ++ res :: post) os in
        fst <$> sock_id self = Some (fd s) /\
        open_fds os' ⊆ open_fds os ∪ {[fd s]}).
Proof.
  intros Hpre.
  destruct (after_refusals_spec (length pre) os) as [_ Hopen].
  split.
  - eexists _, _. unfold __init__.
    rewrite <- (app_nil_r pre) at 1. rewrite (connect_loop_refused pre [] os None Hpre).
    cbn [connect_loop]. split; [reflexivity|]. split; [reflexivity|exact Hopen].
  - intros res Hacc.
    set (osk := after_refusals os (length pre)) in *.
    assert (Hloop : forall rest,
      connect_loop (pre ++ res :: rest) os None =
        (Ret (last_connect_err pre None),
         Some (fst (socket_socket osk res), res),
         snd (socket_socket osk res))).
    { intros rest. rewrite (connect_loop_refused pre _ os None Hpre).
      now apply connect_loop_accepted. }
    assert (Hnew : open_fds (snd (socket_socket osk res)) ⊆
                   open_fds os ∪ {[fd (fst (socket_socket osk res))]}).
    { cbn [socket_socket fst snd fd open_fds]. intros x Hx.
      apply elem_of_union in Hx as [Hx|Hx];
        [apply elem_of_union_l, Hopen, Hx | apply elem_of_union_r, Hx]. }
    exists (fst (socket_socket osk res)), (snd (socket_socket osk res)).
    split; [apply Hloop|]. split.
    { cbn [socket_socket fst snd fd open_fds].
      apply elem_of_union_r, elem_of_singleton. reflexivity. }
    split; [exact Hnew|]. split.
    + now rewrite !(__init___connected _ _ _ _ _ _ _ _ _ (Hloop _)).
    + rewrite (__init___connected _ _ _ _ _ _ _ _ _ (Hloop post)).
      destruct (setup_body _ res _) as [[r self] os2] eqn:Hsetup.
      apply setup_body_spec in Hsetup as (Hid & _ & _ & _ & Hsub & _).
      assert (Hsub' : open_fds os2 ⊆
                      open_fds os ∪ {[fd (fst (socket_socket osk res))]}).
      { intros x Hx. apply Hnew, Hsub, Hx. }
      destruct r as [u|exc|]; [now split| |now split].
      destruct (is_OSError exc && negb (unavail exc)); now split.
Qed.

(** The first address refuses, the second accepts. *)
Lemma connect_fallback_witness :
  exists self os' s,
    __init__ TCPTransport None 16 [Sample.nobody; Sample.server] Sample.os0 =
      (Ret tt, self, os') /\
    sock self = Some s /\ tls s = false /\
    open_fds os' ⊆ open_fds Sample.os0 ∪ {[fd s]}.
Proof.
  pose proof (connect_fallback TCPTransport None 16 [Sample.nobody] [] Sample.os0) as H.
  destruct H as [_ H].
  { repeat constructor. exists Sample.econnrefused. now split. }
  destruct (H Sample.server (conj eq_refl eq_refl))
    as (s & os1 & Hloop & _ & _ & _ & Hinit).
  cbn [app] in Hinit, Hloop.
  destruct (__init__ TCPTransport None 16 [Sample.nobody; Sample.server] Sample.os0)
    as [[r self] os'] eqn:E.
  destruct Hinit as [_ Hfds].
  vm_compute in Hloop. injection Hloop as <- _.
  vm_compute in E. injection E as <- <- <-.
  eexists _, _, _. split; [reflexivity|]. split; [reflexivity|].
  split; [reflexivity|exact Hfds].
Defined.

(** C6, where the code departs from it.  The [try] of the connect loop
    encloses [socket.socket(...)], and its handler closes [self.sock],
    which is still [None] when it was that call that failed.  With a
    first candidate whose socket cannot be created and a second that
    accepts, the constructor does not go on to the second, which on its
    own gives a connected transport: it ends with [AttributeError].  With
    that first candidate alone, no candidate succeeds, and what is raised
    is again [AttributeError], not [socket.error] carrying the error of
    the candidate. *)
Theorem socket_creation_failure :
  (exists self os',
     __init__ TCPTransport None 16 [Sample.server] Sample.os0 =
       (Ret tt, self, os') /\ connected self = true) /\
  __init__ TCPTransport None 16 [Sample.unsupported; Sample.server] Sample.os0 =
    (Raise (mkExc AttributeError None
              "'NoneType' object has no attribute 'close'"),
     new_transport TCPTransport None 16, Sample.os0) /\
  __init__ TCPTransport None 16 [Sample.unsupported] Sample.os0 =
    (Raise (mkExc AttributeError None
              "'NoneType' object has no attribute 'close'"),
     new_transport TCPTransport None 16, Sample.os0) /\
  socket_err Sample.unsupported =
    Some (mkExc socket_error (Some 97%Z)
            "Address family not supported by protocol").
Proof.
  split; [eexists _, _; split; reflexivity|].
  split; [reflexivity|]. split; reflexivity.
Qed.

(** ** Failures after the connect *)



(** The socket a failed construction leaves behind is released by
    [close], which is also what the destructor calls. *)
Lemma close_releases t s os :
  sock t = Some s ->
  exists t' os',
    close t None os = (Ret tt, t', os') /\
    sock t' = None /\ connected t' = false /\ fd s ∉ open_fds os'.
Proof.
  intros Hs. unfold close. rewrite Hs. eexists _, _. split; [reflexivity|].
  split; [reflexivity|]. split; [reflexivity|]. cbn.
  intros Hin. apply elem_of_difference in Hin as [_ Hne].
  apply Hne, elem_of_singleton. reflexivity.
Qed.

(** Closing a transport that holds no socket changes nothing but the
    flag. *)
Lemma close_closed t err os :
  sock t = None -> close t err os = (Ret tt, set_connected t false, os).
Proof. intros Hs. unfold close. now rewrite Hs. Qed.


(** ** Choosing the class *)

(** The class and the options of the object are the ones [__init__] was
    called for; a [TCPTransport] never holds a TLS socket, and an
    [SSLTransport] whose construction succeeds holds one. *)
Lemma __init___class c opts buf_size addrinfo os r self os' :
  __init__ c opts buf_size addrinfo os = (r, self, os') ->
  cls self = c /\ ssl_opts self = opts /\
  (c = TCPTransport -> forall n b, sock_id self = Some (n, b) -> b = false) /\
  (c = SSLTransport -> r = Ret tt -> exists n, sock_id self = Some (n, true)).
Proof.
  destruct (connect_loop addrinfo os None) as [[[le|exc|] [[s res]|]] os1] eqn:Hloop.
  1:{ rewrite (__init___connected _ _ _ _ _ _ _ _ _ Hloop).
    apply connect_loop_open in Hloop as [_ Htls].
    destruct (setup_body _ res os1) as [[r0 self0] os2] eqn:Hsetup.
    apply setup_body_spec in Hsetup as (_ & Hc & Ho & _ & _ & _ & Htcp & Hssl).
    cbn in Hc, Ho, Htcp, Hssl. rewrite Htls in Htcp.
    assert (Hfin : forall self1,
               cls self1 = cls self0 -> ssl_opts self1 = ssl_opts self0 ->
               sock_id self1 = sock_id self0 ->
               forall r1, (r1 = Ret tt -> r0 = Ret tt) ->
               cls self1 = c /\ ssl_opts self1 = opts /\
               (c = TCPTransport ->
                forall n b, sock_id self1 = Some (n, b) -> b = false) /\
               (c = SSLTransport -> r1 = Ret tt ->
                exists n, sock_id self1 = Some (n, true))).
    { intros self1 H1 H2 H3 r1 Hr. rewrite H1, H2, H3.
      split; [exact Hc|]. split; [exact Ho|]. split.
      - intros Hcls n b Hid. rewrite (Htcp Hcls) in Hid. congruence.
      - intros Hcls Hr1. auto. }
    destruct r0 as [[]|exc|].
    + intros [= <- <- <-]. apply Hfin; auto.
    + destruct (is_OSError exc && negb (unavail exc));
        intros [= <- <- <-]; apply Hfin; auto; discriminate.
    + intros [= <- <- <-]. apply Hfin; auto; discriminate. }
  all: unfold __init__; rewrite Hloop; intros [= <- <- <-];
    (split; [reflexivity|]); (split; [reflexivity|]); (split; [|discriminate]);
    intros _ n b; unfold sock_id; cbn; try discriminate.
  all: apply connect_loop_open in Hloop as [_ Htls]; congruence.
Qed.

(** A peer that takes the bytes gets [sendall] to return. *)
Lemma sendall_loop_takes plan : forall bytes sent calls,
  takes plan (length bytes) = true ->
  exists plan' calls',
    sendall_loop plan bytes sent calls = (Ret tt, (plan', sent ++ bytes, calls')).
Proof.
  induction plan as [|[k|e] plan IH]; intros bytes sent calls H;
    destruct bytes as [|b bytes]; cbn [sendall_loop];
    try (eexists _, _; now rewrite app_nil_r); try discriminate.
  cbn [takes length] in H. apply andb_true_iff in H as [_ H].
  destruct (IH (drop k (b :: bytes)) (sent ++ take k (b :: bytes)) (S calls))
    as (plan' & calls' & Hl).
  { now rewrite length_drop. }
  exists plan', calls'. rewrite Hl, <- app_assoc. now rewrite take_drop.
Qed.

(** And the loop of the TLS [write] as well. *)
Lemma ssl_write_loop_takes fuel : forall s bytes,
  takes (send_plan s) (length bytes) = true ->
  length (send_plan s) < fuel ->
  exists s', ssl_write_loop fuel s bytes = (Ret tt, s') /\
             inbound s' = inbound s.
Proof.
  induction fuel as [|fuel IH]; intros s bytes H Hf; [lia|].
  destruct bytes as [|b bytes]; [now eexists|].
  destruct (send_plan s) as [|[k|e] rest] eqn:Hp; cbn [takes length] in H;
    try discriminate.
  apply andb_true_iff in H as [Hk H]. apply Nat.ltb_lt in Hk.
  rewrite (ssl_write_loop_accept fuel s k rest b bytes Hp Hk).
  apply (IH (after_send s (take k (b :: bytes)) rest)); cbn [after_send send_plan].
  - now rewrite length_drop.
  - cbn [length] in Hf. lia.
Qed.

(** [write] of either class returns when the peer takes the bytes, and
    they are what the peer has got. *)
Lemma write_takes t s bytes :
  sock t = Some s -> (cls t = SSLTransport -> tls s = true) ->
  takes (send_plan s) (length bytes) = true ->
  exists s',
    write t bytes = (Ret tt, set_sock t (Some s')) /\
    fd s' = fd s /\ tls s' = tls s /\ inbound s' = inbound s /\
    outbound s' = outbound s ++ bytes.
Proof.
  intros Hs Htls H. unfold write. rewrite Hs. destruct (cls t).
  - unfold sendall.
    destruct (sendall_loop_takes _ bytes (outbound s) (io_calls s) H)
      as (plan' & calls' & ->).
    eexists. split; [reflexivity|]. now cbn.
  - rewrite (Htls eq_refl).
    destruct (ssl_write_loop_takes (S (length (send_plan s))) s bytes H
                (Nat.lt_succ_diag_r _)) as (s' & Hl & Hin).
    pose proof (ssl_write_loop_spec (S (length (send_plan s))) s bytes
                  (Nat.lt_succ_diag_r _)) as Ho.
    rewrite Hl in Ho |- *.
    pose proof (ssl_write_loop_static _ _ _ _ _ Hl) as [Hfd Ht].
    exists s'. repeat split; auto. rewrite Ht. now apply Htls.
Qed.

(** The steps after the connect succeed when the two options can be
    set, the TLS handshake (if there is one) succeeds and the peer takes
    the protocol header. *)
Lemma setup_body_takes t s res os :
  sock t = Some s -> tls s = false ->
  nodelay_err res = None -> keepalive_err res = None ->
  (cls t = SSLTransport ->
   handshake_err res = None /\ exists d, ssl_opts t = Some (VDict d)) ->
  takes (send_plan s) (length AMQP_PROTOCOL_HEADER) = true ->
  exists s',
    setup_body t res os = (Ret tt, set_sock t (Some s'), os) /\
    fd s' = fd s /\
    tls s' = match cls t with SSLTransport => true | TCPTransport => false end /\
    inbound s' = inbound s /\
    outbound s' = outbound s ++ AMQP_PROTOCOL_HEADER.
Proof.
  intros Hs Htls Hn Hk Hssl H. unfold setup_body, _setup_transport.
  rewrite Hn, Hk. destruct (cls t) eqn:Hc.
  - destruct (write_takes t s AMQP_PROTOCOL_HEADER Hs) as (s' & -> & Hfd & Ht & Hi & Ho);
      [rewrite Hc; discriminate|exact H|].
    exists s'. rewrite Ht, Htls. now repeat split.
  - destruct (Hssl eq_refl) as [Hh [d Hd]]. rewrite Hd, Hs, Hh.
    set (w := mkSocket (fd s) true (inbound s) (recv_plan s) (send_plan s)
                       (outbound s) (io_calls s)).
    destruct (write_takes (set_sock t (Some w)) w AMQP_PROTOCOL_HEADER)
      as (s' & -> & Hfd & Ht & Hi & Ho); [reflexivity|reflexivity|exact H|].
    exists s'. now repeat split.
Qed.

(** The constructor returns a connected transport when, after candidates
    that refuse, one accepts, lets the options be set and the handshake
    (if there is one) succeed, and takes the protocol header. *)
Lemma __init___takes c opts buf_size pre res post os :
  Forall refuses pre -> accepts res ->
  nodelay_err res = None -> keepalive_err res = None ->
  (c = SSLTransport ->
   handshake_err res = None /\ exists d, opts = Some (VDict d)) ->
  takes (peer_send_plan res) (length AMQP_PROTOCOL_HEADER) = true ->
  exists self os' s,
    __init__ c opts buf_size (pre ++ res :: post) os = (Ret tt, self, os') /\
    connected self = true /\ cls self = c /\
    sock self = Some s /\
    tls s = match c with SSLTransport => true | TCPTransport => false end /\
    fd s ∈ open_fds os' /\
    outbound s = AMQP_PROTOCOL_HEADER /\ inbound s = peer_inbound res.
Proof.
  intros Hpre Hacc Hn Hk Hssl H.
  set (osk := after_refusals os (length pre)).
  assert (Hloop : connect_loop (pre ++ res :: post) os None =
            (Ret (last_connect_err pre None),
             Some (fst (socket_socket osk res), res),
             snd (socket_socket osk res))).
  { rewrite (connect_loop_refused pre _ os None Hpre).
    now apply connect_loop_accepted. }
  rewrite (__init___connected _ _ _ _ _ _ _ _ _ Hloop).
  destruct (setup_body_takes
              (set_sock (new_transport c opts buf_size)
                        (Some (fst (socket_socket osk res))))
              (fst (socket_socket osk res)) res (snd (socket_socket osk res)))
    as (s' & -> & Hfd & Ht & Hi & Ho); try reflexivity; auto.
  eexists _, _, s'. split; [reflexivity|].
  split; [reflexivity|]. split; [reflexivity|]. split; [reflexivity|].
  split; [exact Ht|]. split.
  { rewrite Hfd. cbn [socket_socket fst snd fd open_fds].
    apply elem_of_union_r, elem_of_singleton. reflexivity. }
  split; [exact Ho|exact Hi].
Qed.

(** C10. Whatever [ssl_opts] is, the transport [create_transport] builds
    is an [SSLTransport] exactly when [ssl_opts] is a dict.  Any other
    value ([None], [True], a string, a list, ...) is treated as [None] is:
    the call does what it does for [None], the transport is a
    [TCPTransport] that stores no options and never holds a TLS socket.
    For a dict the call is the [SSLTransport] constructor with that dict.
    So where a server can be reached (after addresses that refuse, one
    accepts, lets the socket options be set and takes the protocol
    header), the call returns a connected transport, without an error or
    any other sign: one on a plain socket that has sent the header in the
    clear when [ssl_opts] is not a dict, whether or not the server speaks
    TLS, and one on a TLS socket when it is a dict and the handshake
    succeeds. *)
Theorem create_transport_class (addrinfo : list Candidate) (os : OS)
    (frame_max : nat) (opts : Val) :
  (let '(r, self, _) := create_transport addrinfo os frame_max opts in
   (cls self = SSLTransport <-> isinstance_dict opts = true) /\
   (isinstance_dict opts = false ->
      cls self = TCPTransport /\ ssl_opts self = None /\
      forall n b, sock_id self = Some (n, b) -> b = false) /\
   (isinstance_dict opts = true -> r = Ret tt ->
      exists n, sock_id self = Some (n, true))) /\
  (isinstance_dict opts = false ->
     create_transport addrinfo os frame_max opts =
     create_transport addrinfo os frame_max VNone) /\
  (isinstance_dict opts = true ->
     create_transport addrinfo os frame_max opts =
     __init__ SSLTransport (Some opts) frame_max addrinfo os) /\
  (forall pre res post,
     addrinfo = pre ++ res :: post ->
     Forall refuses pre -> accepts res ->
     nodelay_err res = None -> keepalive_err res = None ->
     (isinstance_dict opts = true -> handshake_err res = None) ->
     takes (peer_send_plan res) (length AMQP_PROTOCOL_HEADER) = true ->
     exists self os' s,
       create_transport addrinfo os frame_max opts = (Ret tt, self, os') /\
       connected self = true /\
       cls self = (if isinstance_dict opts then SSLTransport else TCPTransport) /\
       sock self = Some s /\ tls s = isinstance_dict opts /\
       fd s ∈ open_fds os' /\
       outbound s = AMQP_PROTOCOL_HEADER /\ inbound s = peer_inbound res).
Proof.
  split; [|split; [|split]].
  - unfold create_transport.
    destruct (isinstance_dict opts) eqn:Hd.
    + destruct (__init__ SSLTransport _ _ _ _) as [[r self] os'] eqn:Hi.
      apply __init___class in Hi as (Hc & _ & _ & Hssl).
      split; [now split|]. split; [discriminate|]. auto.
    + destruct (__init__ TCPTransport _ _ _ _) as [[r self] os'] eqn:Hi.
      apply __init___class in Hi as (Hc & Ho & Htcp & _).
      split; [split; congruence|]. split; [|discriminate].
      intros _. split; [exact Hc|]. split; [exact Ho|]. now apply Htcp.
  - unfold create_transport. now intros ->.
  - unfold create_transport. now intros ->.
  - intros pre res post -> Hpre Hacc Hn Hk Hh Htakes.
    unfold create_transport. destruct (isinstance_dict opts) eqn:Hd.
    + destruct opts as [| | | | |d]; try discriminate.
      apply __init___takes; auto. intros _. split; [now apply Hh|now exists d].
    + apply __init___takes; auto. discriminate.
Qed.

(** [True] for [ssl_opts], towards a server that speaks no TLS and is
    reached at the second address. *)
Lemma create_transport_class_witness :
  exists self os' s,
    create_transport [Sample.nobody; Scene.plain_only] Sample.os0 16 (VBool true) =
      (Ret tt, self, os') /\
    connected self = true /\ cls self = TCPTransport /\
    sock self = Some s /\ tls s = false /\
    outbound s = AMQP_PROTOCOL_HEADER.
Proof.
  destruct (create_transport_class [Sample.nobody; Scene.plain_only]
              Sample.os0 16 (VBool true)) as (_ & _ & _ & H).
  destruct (H [Sample.nobody] Scene.plain_only [] eq_refl) as
    (self & os' & s & Hr & Hc & Hcls & Hs & Ht & _ & Ho & _);
    try reflexivity; try discriminate.
  { repeat constructor. exists Sample.econnrefused. now split. }
  { now split. }
  exists self, os', s. now repeat split.
Defined.

(** A caller that passes [True] for [ssl_opts] gets a connected transport
    that speaks plain TCP. *)
Example create_transport_true :
  exists self os',
    create_transport [Sample.server] Sample.os0 16 (VBool true) =
      (Ret tt, self, os') /\
    cls self = TCPTransport /\ sock_id self = Some (3, false) /\
    connected self = true /\ outbound_of self = AMQP_PROTOCOL_HEADER.
Proof. eexists _, _. vm_compute. repeat split. Qed.

Example create_transport_dict :
  exists self os',
    create_transport [Sample.server] Sample.os0 16 (VDict []) =
      (Ret tt, self, os') /\
    cls self = SSLTransport /\ sock_id self = Some (3, true) /\
    connected self = true /\ outbound_of self = AMQP_PROTOCOL_HEADER.
Proof. eexists _, _. vm_compute. repeat split. Qed.

(** * Further properties *)

(** ** What a read leaves alone *)

Lemma recv_into_static s buflen nbytes r s' :
  recv_into s buflen nbytes = (r, s') ->
  fd s' = fd s /\ tls s' = tls s /\
  send_plan s' = send_plan s /\ outbound s' = outbound s /\
  io_calls s <= io_calls s' /\
  match r with Ret got => length got <= buflen | _ => True end.
Proof.
  assert (Hstep : forall len, len <= buflen ->
            recv_step s len = (r, s') ->
            fd s' = fd s /\ tls s' = tls s /\
            send_plan s' = send_plan s /\ outbound s' = outbound s /\
            io_calls s <= io_calls s' /\
            match r with Ret got => length got <= buflen | _ => True end).
  { intros len Hlen. unfold recv_step.
    destruct (recv_plan s) as [|[k|e] plan]; intros [= <- <-]; cbn;
      repeat split; auto. rewrite length_take. lia. }
  unfold recv_into. destruct (tls s) eqn:Htls.
  - destruct ((nbytes =? 0) || (buflen <? nbytes)) eqn:Hc.
    + destruct (buflen =? 0); [|apply Hstep; lia].
      intros [= <- <-]. cbn. repeat split; auto. lia.
    + apply orb_false_elim in Hc as [_ Hc]. apply Nat.ltb_ge in Hc.
      destruct (nbytes =? 0); [|apply Hstep; lia].
      intros [= <- <-]. cbn. repeat split; auto. lia.
  - destruct (nbytes =? 0).
    + rewrite Nat.ltb_irrefl. apply Hstep. lia.
    + destruct (Nat.ltb_spec buflen nbytes); [|apply Hstep; lia].
      intros [= <- <-]. repeat split; auto.
Qed.

(** The loop of [_read] changes the contents of the buffer and the
    receiving side of the socket, and nothing else. *)
Lemma _read_loop_keeps fuel : forall t off to_read initial errnos r t',
  off <= length (_rbuf t) ->
  _read_loop fuel t off to_read initial errnos = (r, t') ->
  length (_rbuf t') = length (_rbuf t) /\
  cls t' = cls t /\ ssl_opts t' = ssl_opts t /\
  inst_connected t' = inst_connected t /\
  sock_id t' = sock_id t /\
  outbound_of t' = outbound_of t /\ send_plan_of t' = send_plan_of t /\
  io_calls_of t <= io_calls_of t'.
Proof.
  induction fuel as [|fuel IH]; intros t off to_read initial errnos r t' Hoff H.
  - destruct to_read; injection H as <- <-; repeat split; auto.
  - destruct to_read as [|m]; [injection H as <- <-; repeat split; auto|].
    cbn [_read_loop] in H.
    destruct (sock t) as [s|] eqn:Hs; [|injection H as <- <-; repeat split; auto].
    unfold sock_id, outbound_of, send_plan_of, io_calls_of. rewrite Hs.
    destruct (recv_into s (length (_rbuf t) - off) (S m)) as [[got|exc|] s'] eqn:Hr;
      apply recv_into_static in Hr as (Hfd & Htls & Hsp & Hout & Hio & Hlen).
    + assert (Hbuf : length (store_at (_rbuf t) off got) = length (_rbuf t))
        by (apply length_store_at; lia).
      destruct (length got =? 0).
      * injection H as <- <-. cbn. rewrite Hbuf, Hfd, Htls, Hsp, Hout. repeat split; auto.
      * apply IH in H; [|cbn; lia].
        unfold sock_id, outbound_of, send_plan_of, io_calls_of in H. cbn in H.
        destruct H as (H1 & H2 & H3 & H4 & H5 & H6 & H7 & H8).
        rewrite H1, H2, H3, H4, H5, H6, H7, Hbuf, Hfd, Htls, Hsp, Hout.
        repeat split; auto. lia.
    + destruct (is_OSError exc && _).
      * apply IH in H; [|exact Hoff].
        unfold sock_id, outbound_of, send_plan_of, io_calls_of in H. cbn in H.
        destruct H as (H1 & H2 & H3 & H4 & H5 & H6 & H7 & H8).
        rewrite H1, H2, H3, H4, H5, H6, H7, Hfd, Htls, Hsp, Hout.
        repeat split; auto. lia.
      * injection H as <- <-. cbn. rewrite Hfd, Htls, Hsp, Hout. repeat split; auto.
    + injection H as <- <-. cbn. rewrite Hfd, Htls, Hsp, Hout. repeat split; auto.
Qed.

Lemma read_keeps t n initial r t' :
  read t n initial = (r, t') ->
  length (_rbuf t') = length (_rbuf t) /\
  cls t' = cls t /\ ssl_opts t' = ssl_opts t /\
  inst_connected t' = inst_connected t /\
  sock_id t' = sock_id t /\
  outbound_of t' = outbound_of t /\ send_plan_of t' = send_plan_of t /\
  io_calls_of t <= io_calls_of t'.
Proof.
  rewrite read_unfold. unfold _read.
  destruct (_read_loop _ t 0 n initial _) as [[[]|e|] t1] eqn:H;
    intros [= <- <-]; apply _read_loop_keeps in H; auto; lia.
Qed.

(** ** Frames and the byte stream *)

(** The three reads behind a frame that [read_frame] returns. *)
Lemma read_frame_ret_inv t frame t' :
  read_frame t = (Ret frame, t') ->
  exists hdr t1 payload t2,
    read t 7 true = (Ret hdr, t1) /\
    read t1 (payload_size (mkFrame hdr)) false = (Ret payload, t2) /\
    read t2 1 false = (Ret [xce], t') /\
    frame = mkFrame (hdr ++ payload ++ [xce]).
Proof.
  intros H. unfold read_frame in H.
  destruct (read_frame_body t) as [[[fr i]|exc|] tb] eqn:Hb.
  - unfold read_frame_body in Hb. cbn [data app] in Hb.
    destruct (read t 7 true) as [[hdr|?|] t1] eqn:H1; try discriminate.
    destruct (read t1 _ false) as [[payload|?|] t2] eqn:H2; try discriminate.
    destruct (read t2 1 false) as [[term|?|] t3] eqn:H3; try discriminate.
    pose proof (read_ret_length _ _ _ _ _ H3) as L3.
    destruct term as [|b [|? ?]]; try discriminate.
    injection Hb as <- <- <-. rewrite to_N_END in H.
    destruct (Byte.eqb b xce) eqn:Eb; [|discriminate].
    injection H as <- <-. apply Byte.byte_dec_bl in Eb. subst b.
    exists hdr, t1, payload, t2. rewrite <- app_assoc. auto.
  - destruct (is_OSError exc); [|discriminate].
    destruct (_ && _); [discriminate|]. destruct (_ && _); discriminate.
  - discriminate.
Qed.

Lemma read_ret_stream t n initial view t' :
  read t n initial = (Ret view, t') ->
  length view = n /\ n <= length (_rbuf t) /\
  view = take n (inbound_of t) /\ inbound_of t' = drop n (inbound_of t).
Proof.
  intros H. pose proof (_read_spec t n initial (read_errnos (cls t))) as He.
  now rewrite <- read_unfold, H in He.
Qed.

(** A frame that [read_frame] returns, seen from the byte stream. *)
Lemma read_frame_ret_stream t frame t' :
  read_frame t = (Ret frame, t') ->
  complete frame /\
  length (data frame) = 7 + payload_size (mkFrame (take 7 (data frame))) + 1 /\
  data frame = take (length (data frame)) (inbound_of t) /\
  inbound_of t' = drop (length (data frame)) (inbound_of t) /\
  7 <= length (_rbuf t) /\
  payload_size (mkFrame (take 7 (data frame))) <= length (_rbuf t) /\
  inst_connected t' = inst_connected t /\
  length (_rbuf t') = length (_rbuf t).
Proof.
  intros H. apply read_frame_ret_inv in H as (hdr & t1 & payload & t2 & H1 & H2 & H3 & ->).
  pose proof (read_keeps _ _ _ _ _ H1) as (B1 & _ & _ & C1 & _).
  pose proof (read_keeps _ _ _ _ _ H2) as (B2 & _ & _ & C2 & _).
  pose proof (read_keeps _ _ _ _ _ H3) as (B3 & _ & _ & C3 & _).
  apply read_ret_stream in H1 as (L1 & F1 & V1 & I1).
  apply read_ret_stream in H2 as (L2 & F2 & V2 & I2).
  apply read_ret_stream in H3 as (L3 & F3 & V3 & I3).
  set (p := payload_size (mkFrame hdr)) in *.
  cbn [data]. rewrite take_app_length' by auto. fold p.
  assert (Hlen : length (hdr ++ payload ++ [xce]) = 7 + p + 1).
  { rewrite !length_app. cbn [length]. lia. }
  rewrite Hlen.
  split; [exists hdr, payload; auto|]. split; [reflexivity|].
  split; [|split; [|repeat split; try lia; congruence]].
  - rewrite V3, V2, V1, I2, I1.
    rewrite (take_take_drop (drop 7 (inbound_of t)) p 1).
    rewrite (take_take_drop (inbound_of t) 7 (p + 1)).
    f_equal; lia.
  - rewrite I3, I2, I1, !drop_drop. f_equal; lia.
Qed.

(** X1. A frame that [read_frame] returns is, byte for byte, the front of
    what the peer had sent and not yet been read: a complete frame image
    of 7 + payload_size + 1 bytes.  Exactly those bytes are consumed, the
    header and the payload each fitted the read buffer, and [connected] is
    as it was. *)
Theorem read_frame_prefix (t : Transport) (frame : Frame) (t' : Transport) :
  read_frame t = (Ret frame, t') ->
  complete frame /\
  length (data frame) = 7 + payload_size (mkFrame (take 7 (data frame))) + 1 /\
  data frame = take (length (data frame)) (inbound_of t) /\
  inbound_of t' = drop (length (data frame)) (inbound_of t) /\
  7 <= length (_rbuf t) /\
  payload_size (mkFrame (take 7 (data frame))) <= length (_rbuf t) /\
  inst_connected t' = inst_connected t.
Proof.
  intros H. apply read_frame_ret_stream in H. tauto.
Qed.

Lemma read_frame_prefix_witness :
  exists t',
    read_frame Sample.good = (Ret (mkFrame (take 10 Sample.wire)), t') /\
    inbound_of t' = drop 10 Sample.wire.
Proof.
  destruct (read_frame Sample.good) as [[frame|e|] t'] eqn:E;
    try (vm_compute in E; discriminate).
  pose proof (read_frame_prefix Sample.good frame t' E) as (_ & _ & _ & Hin & _).
  exists t'. vm_compute in E. injection E as <- <-. split; reflexivity.
Defined.

(** X2. Two frames returned by successive calls of [read_frame] are
    consecutive pieces of the peer's byte stream: the second starts where
    the first ended, no byte is skipped and none is seen twice, although
    both went through the same buffer. *)
Theorem read_frame_consecutive (t : Transport) (f1 f2 : Frame) (t1 t2 : Transport) :
  read_frame t = (Ret f1, t1) ->
  read_frame t1 = (Ret f2, t2) ->
  data f1 ++ data f2 = take (length (data f1) + length (data f2)) (inbound_of t) /\
  inbound_of t2 = drop (length (data f1) + length (data f2)) (inbound_of t).
Proof.
  intros H1 H2.
  apply read_frame_ret_stream in H1 as (_ & _ & D1 & I1 & _).
  apply read_frame_ret_stream in H2 as (_ & _ & D2 & I2 & _).
  rewrite I1 in D2, I2. split.
  - rewrite D1 at 1. rewrite D2 at 1. apply take_take_drop.
  - rewrite I2. apply drop_drop.
Qed.

Lemma read_frame_consecutive_witness :
  exists t1 t2,
    read_frame Scene.two_frames = (Ret (mkFrame (take 10 Sample.wire)), t1) /\
    read_frame t1 = (Ret (mkFrame Scene.heartbeat), t2) /\
    inbound_of t2 = [].
Proof.
  destruct (read_frame Scene.two_frames) as [[f1|e|] t1] eqn:E1;
    try (vm_compute in E1; discriminate).
  destruct (read_frame t1) as [[f2|e|] t2] eqn:E2.
  - pose proof (read_frame_consecutive _ _ _ _ _ E1 E2) as [_ Hin].
    exists t1, t2. vm_compute in E1. injection E1 as <- <-.
    vm_compute in E2. injection E2 as <- <-. repeat split.
  - vm_compute in E1. injection E1 as <- <-. vm_compute in E2. discriminate.
  - vm_compute in E1. injection E1 as <- <-. vm_compute in E2. discriminate.
Defined.

(** ** What the frame operations leave alone *)

Lemma read_frame_body_keeps t r t' :
  read_frame_body t = (r, t') ->
  length (_rbuf t') = length (_rbuf t) /\
  cls t' = cls t /\ ssl_opts t' = ssl_opts t /\
  inst_connected t' = inst_connected t /\
  sock_id t' = sock_id t /\
  outbound_of t' = outbound_of t /\ send_plan_of t' = send_plan_of t /\
  io_calls_of t <= io_calls_of t'.
Proof.
  unfold read_frame_body.
  destruct (read t 7 true) as [r1 t1] eqn:H1.
  apply read_keeps in H1 as (A1 & B1 & C1 & D1 & E1 & F1 & G1 & I1).
  assert (Hbase : forall r0, (r0, t1) = (r, t') ->
    length (_rbuf t') = length (_rbuf t) /\
    cls t' = cls t /\ ssl_opts t' = ssl_opts t /\
    inst_connected t' = inst_connected t /\
    sock_id t' = sock_id t /\
    outbound_of t' = outbound_of t /\ send_plan_of t' = send_plan_of t /\
    io_calls_of t <= io_calls_of t') by (intros r0 [= _ <-]; auto 10).
  destruct r1 as [hdr|e|]; [|apply Hbase|apply Hbase].
  destruct (read t1 _ false) as [r2 t2] eqn:H2.
  apply read_keeps in H2 as (A2 & B2 & C2 & D2 & E2 & F2 & G2 & I2).
  assert (Hbase2 : forall r0, (r0, t2) = (r, t') ->
    length (_rbuf t') = length (_rbuf t) /\
    cls t' = cls t /\ ssl_opts t' = ssl_opts t /\
    inst_connected t' = inst_connected t /\
    sock_id t' = sock_id t /\
    outbound_of t' = outbound_of t /\ send_plan_of t' = send_plan_of t /\
    io_calls_of t <= io_calls_of t').
  { intros r0 [= _ <-]. repeat split; try congruence. lia. }
  destruct r2 as [payload|e|]; [|apply Hbase2|apply Hbase2].
  destruct (read t2 1 false) as [r3 t3] eqn:H3.
  apply read_keeps in H3 as (A3 & B3 & C3 & D3 & E3 & F3 & G3 & I3).
  assert (Hbase3 : forall r0, (r0, t3) = (r, t') ->
    length (_rbuf t') = length (_rbuf t) /\
    cls t' = cls t /\ ssl_opts t' = ssl_opts t /\
    inst_connected t' = inst_connected t /\
    sock_id t' = sock_id t /\
    outbound_of t' = outbound_of t /\ send_plan_of t' = send_plan_of t /\
    io_calls_of t <= io_calls_of t').
  { intros r0 [= _ <-]. repeat split; try congruence. lia. }
  destruct r3 as [[|b term]|e|]; apply Hbase3.
Qed.

(** X3. Whatever its outcome, [read_frame] sends nothing, keeps the read
    buffer at its size, stays on the same descriptor and class, and never
    turns [connected] on: the flag is as before or has been set to
    false. *)
Theorem read_frame_keeps (t : Transport) :
  let '(_, t') := read_frame t in
  outbound_of t' = outbound_of t /\
  send_plan_of t' = send_plan_of t /\
  length (_rbuf t') = length (_rbuf t) /\
  sock_id t' = sock_id t /\
  cls t' = cls t /\
  (inst_connected t' = inst_connected t \/ inst_connected t' = Some false).
Proof.
  unfold read_frame.
  destruct (read_frame_body t) as [r tb] eqn:Hb.
  apply read_frame_body_keeps in Hb as (A & B & C & D & E & F & G & _).
  assert (Hsame : outbound_of tb = outbound_of t /\
                  send_plan_of tb = send_plan_of t /\
                  length (_rbuf tb) = length (_rbuf t) /\
                  sock_id tb = sock_id t /\
                  cls tb = cls t /\
                  (inst_connected tb = inst_connected t \/
                   inst_connected tb = Some false)) by auto 10.
  assert (Hoff : outbound_of (set_connected tb false) = outbound_of t /\
                 send_plan_of (set_connected tb false) = send_plan_of t /\
                 length (_rbuf (set_connected tb false)) = length (_rbuf t) /\
                 sock_id (set_connected tb false) = sock_id t /\
                 cls (set_connected tb false) = cls t /\
                 (inst_connected (set_connected tb false) = inst_connected t \/
                  inst_connected (set_connected tb false) = Some false))
    by (repeat split; auto).
  destruct r as [[frame i]|exc|]; [|  |exact Hsame].
  - now destruct (_ =? _)%N.
  - destruct (is_OSError exc); [|exact Hsame].
    destruct (_ && _); [exact Hsame|]. now destruct (_ && _).
Qed.

(** ** Writing a frame *)

Lemma sendall_loop_spec plan : forall bytes sent calls r plan' sent' calls',
  sendall_loop plan bytes sent calls = (r, (plan', sent', calls')) ->
  match r with
  | Ret _ => sent' = sent ++ bytes
  | Raise _ => exists k, k < length bytes /\ sent' = sent ++ take k bytes
  | Blocked => plan' = []
  end.
Proof.
  induction plan as [|[k|e] plan IH]; intros bytes sent calls r plan' sent' calls' H;
    destruct bytes as [|b bytes]; cbn [sendall_loop] in H;
    try (injection H as <- <- <- <-; first [now rewrite app_nil_r | reflexivity]).
  - apply IH in H. destruct r as [u|exc|]; [| |exact H].
    + rewrite H, <- app_assoc. now rewrite take_drop.
    + destruct H as (j & Hj & ->). rewrite length_drop in Hj.
      exists (k + j). split; [lia|].
      rewrite <- app_assoc. f_equal. apply take_take_drop.
  - injection H as <- <- <- <-. exists 0. split; [cbn; lia|].
    now rewrite take_0, app_nil_r.
Qed.

Lemma ssl_write_loop_recv fuel : forall s bytes r s',
  ssl_write_loop fuel s bytes = (r, s') ->
  inbound s' = inbound s /\ recv_plan s' = recv_plan s.
Proof.
  induction fuel as [|fuel IH]; intros s bytes r s' H.
  - destruct bytes; now injection H as <- <-.
  - destruct bytes as [|b bytes]; [now injection H as <- <-|].
    cbn [ssl_write_loop] in H. unfold ssl_write in H.
    destruct (send_plan s) as [|[k|e] plan]; try (now injection H as <- <-).
    cbv zeta in H. destruct (_ =? 0); [now injection H as <- <-|].
    apply IH in H. exact H.
Qed.

(** What [write] of either class has done when it stops: on return the
    peer has accepted the bytes, all of them and in order; when it raises,
    only a part of them; and nothing was received meanwhile. *)
Lemma write_spec t bytes :
  let '(r, t') := write t bytes in
  match r with
  | Ret _ => outbound_of t' = outbound_of t ++ bytes
  | Raise _ =>
      exists k, k <= length bytes /\ outbound_of t' = outbound_of t ++ take k bytes
  | Blocked => send_plan_of t' = []
  end /\
  inbound_of t' = inbound_of t /\ recv_plan_of t' = recv_plan_of t /\
  _rbuf t' = _rbuf t.
Proof.
  assert (Hnone : forall l : list byte,
            exists k, k <= length bytes /\ l = l ++ take k bytes).
  { intros l. exists 0. split; [lia|]. now rewrite take_0, app_nil_r. }
  unfold write. destruct (cls t), (sock t) as [s|] eqn:Hs.
  - unfold sendall.
    destruct (sendall_loop _ _ _ _) as [r [[plan' sent'] calls']] eqn:Hl.
    apply sendall_loop_spec in Hl.
    unfold outbound_of, send_plan_of, inbound_of, recv_plan_of.
    cbn [sock set_sock _rbuf outbound send_plan inbound recv_plan]. rewrite Hs.
    split; [|auto]. destruct r as [u|exc|]; auto.
    destruct Hl as (k & Hk & ->). exists k. split; [lia|reflexivity].
  - unfold outbound_of, send_plan_of, inbound_of, recv_plan_of. rewrite Hs. auto.
  - destruct (tls s) eqn:Htls.
    + destruct (ssl_write_loop (S (length (send_plan s))) s bytes) as [r s'] eqn:Hl.
      pose proof (ssl_write_loop_spec _ s bytes (Nat.lt_succ_diag_r _)) as Hspec.
      rewrite Hl in Hspec. apply ssl_write_loop_recv in Hl as [Hin Hplan].
      unfold outbound_of, send_plan_of, inbound_of, recv_plan_of.
      cbn [sock set_sock _rbuf]. rewrite Hs.
      split; [|auto]. destruct r as [u|exc|]; auto.
      destruct Hspec as (k & Hk & ->). exists k. split; [lia|reflexivity].
    + unfold outbound_of, send_plan_of, inbound_of, recv_plan_of. rewrite Hs. auto.
  - unfold outbound_of, send_plan_of, inbound_of, recv_plan_of. rewrite Hs. auto.
Qed.

(** X4. When [write_frame] returns, the peer has accepted the whole byte
    image of the frame, in order, right after what it had accepted before,
    and [connected] is as it was.  When it raises, only a leading part of
    the image has gone out.  In no case has it received anything or
    touched the read buffer, and it never turns [connected] on. *)
Theorem write_frame_sends (t : Transport) (frame : Frame) :
  let '(r, t') := write_frame t frame in
  match r with
  | Ret _ =>
      outbound_of t' = outbound_of t ++ data frame /\
      inst_connected t' = inst_connected t
  | Raise _ =>
      (exists k, k <= length (data frame) /\
                 outbound_of t' = outbound_of t ++ take k (data frame)) /\
      (inst_connected t' = inst_connected t \/ inst_connected t' = Some false)
  | Blocked => send_plan_of t' = []
  end /\
  inbound_of t' = inbound_of t /\ recv_plan_of t' = recv_plan_of t /\
  _rbuf t' = _rbuf t.
Proof.
  unfold write_frame.
  pose proof (write_spec t (data frame)) as Hw.
  destruct (write t (data frame)) as [r t1] eqn:H.
  apply write_inst_connected in H.
  destruct Hw as (Hout & Hrecv).
  destruct r as [u|exc|]; [now split| |now split].
  destruct (is_timeout exc); [split; auto|].
  destruct (is_OSError exc); [|split; auto].
  destruct (negb _); split; auto.
Qed.

(** ** Frames that arrive whole *)

Lemma read_frame_whole t s hdr payload rest :
  sock t = Some s ->
  inbound s = hdr ++ payload ++ xce :: rest ->
  length hdr = 7 ->
  length payload = payload_size (mkFrame hdr) ->
  7 <= length (_rbuf t) -> length payload <= length (_rbuf t) ->
  Forall delivering (recv_plan s) ->
  7 + length payload + 1 <= length (recv_plan s) ->
  exists t' s',
    read_frame t = (Ret (mkFrame (hdr ++ payload ++ [xce])), t') /\
    sock t' = Some s' /\ inbound s' = rest /\
    Forall delivering (recv_plan s') /\
    length (recv_plan s) <= length (recv_plan s') + (7 + length payload + 1) /\
    length (_rbuf t') = length (_rbuf t).
Proof.
  intros Hs Hin Lh Lp B7 Bp Hplan Hsteps.
  destruct (read_progress t s 7 true Hs Hplan) as (t1 & s1 & R1 & Hs1 & I1 & P1 & N1 & B1);
    [lia | rewrite Hin, !length_app; cbn [length]; lia | lia |].
  rewrite Hin, take_app_length' in R1 by auto.
  rewrite Hin, drop_app_length' in I1 by auto.
  destruct (read_progress t1 s1 (length payload) false Hs1 P1)
    as (t2 & s2 & R2 & Hs2 & I2 & P2 & N2 & B2);
    [lia | rewrite I1, length_app; lia | lia |].
  rewrite I1, take_app_length' in R2 by auto.
  rewrite I1, drop_app_length' in I2 by auto.
  destruct (read_progress t2 s2 1 false Hs2 P2)
    as (t3 & s3 & R3 & Hs3 & I3 & P3 & N3 & B3);
    [lia | rewrite I2; cbn [length]; lia | lia |].
  rewrite I2 in R3, I3. cbn in R3, I3.
  exists t3, s3. repeat split; auto; try lia.
  unfold read_frame, read_frame_body. cbn [data app].
  rewrite R1, <- Lp, R2, R3, <- app_assoc. reflexivity.
Qed.

Lemma complete_whole t s frame rest :
  complete frame ->
  sock t = Some s ->
  inbound s = data frame ++ rest ->
  7 <= length (_rbuf t) -> length (data frame) <= length (_rbuf t) + 8 ->
  Forall delivering (recv_plan s) ->
  length (data frame) <= length (recv_plan s) ->
  exists t' s',
    read_frame t = (Ret frame, t') /\
    sock t' = Some s' /\ inbound s' = rest /\
    Forall delivering (recv_plan s') /\
    length (recv_plan s) <= length (recv_plan s') + length (data frame) /\
    length (_rbuf t') = length (_rbuf t).
Proof.
  intros (hdr & payload & Hd & Lh & Lp) Hs Hin B7 Bp Hplan Hsteps.
  destruct frame as [d]. cbn [data] in *. subst d.
  rewrite !length_app in *. cbn [length] in *.
  replace (length hdr + (length payload + 1)) with (7 + length payload + 1)
    in * by lia.
  apply (read_frame_whole t s hdr payload rest); auto; try lia.
  rewrite Hin, <- !app_assoc. reflexivity.
Qed.

(** X5. A complete frame that the peer has sent is returned by
    [read_frame] as it was sent, however the bytes are cut into pieces,
    under these conditions: the read buffer holds the 7 header bytes and
    holds the payload (the whole frame is at most 8 bytes longer than the
    buffer), every receive call to come hands over at least one byte, and
    there are at least as many of them to come as the frame has bytes.
    What follows the frame on the wire is then left for the next call,
    and no more receive calls are issued than the frame has bytes.  (What
    a payload larger than the buffer leads to on a plain socket is
    X13.) *)
Theorem read_frame_delivers (t : Transport) (s : Socket) (frame : Frame)
    (rest : list byte) :
  complete frame ->
  sock t = Some s ->
  inbound s = data frame ++ rest ->
  7 <= length (_rbuf t) -> length (data frame) <= length (_rbuf t) + 8 ->
  Forall delivering (recv_plan s) ->
  length (data frame) <= length (recv_plan s) ->
  exists t',
    read_frame t = (Ret frame, t') /\
    inbound_of t' = rest /\
    length (recv_plan s) <= length (recv_plan_of t') + length (data frame).
Proof.
  intros Hc Hs Hin B7 Bp Hplan Hsteps.
  destruct (complete_whole t s frame rest Hc Hs Hin B7 Bp Hplan Hsteps)
    as (t' & s' & Hr & Hs' & Hi & _ & Hn & _).
  exists t'. unfold inbound_of, recv_plan_of. rewrite Hs'. auto.
Qed.

Lemma complete_frame : complete Scene.frame.
Proof.
  exists (take 7 Sample.wire), [xaa; xbb]. repeat split.
Qed.

Lemma read_frame_delivers_witness :
  exists t',
    read_frame (Scene.reader Sample.wire) = (Ret Scene.frame, t') /\
    inbound_of t' = [x01] /\
    12 <= length (recv_plan_of t') + 10.
Proof.
  apply (read_frame_delivers (Scene.reader Sample.wire)
           (mkSocket 3 false Sample.wire (replicate 12 (Deliver 3)) [] [] 0)
           Scene.frame [x01] complete_frame eq_refl eq_refl).
  - cbn. lia.
  - cbn. lia.
  - repeat constructor.
  - cbn. lia.
Defined.

(** X6. A complete frame that [write_frame] has returned for on one
    transport, and whose bytes, as the writer's peer accepted them during
    the call, are what another transport is given, comes out of
    [read_frame] there unchanged, with no byte left over.  The conditions
    on the reading side are those of X5: its buffer holds the 7 header
    bytes and holds the payload (the whole frame is at most 8 bytes longer
    than the buffer), every receive call to come hands over at least one
    byte, and there are at least as many of them to come as the frame has
    bytes. *)
Theorem loopback_round_trip (tw tw' tr : Transport) (sr : Socket) (frame : Frame) :
  complete frame ->
  write_frame tw frame = (Ret tt, tw') ->
  sock tr = Some sr ->
  inbound sr = drop (length (outbound_of tw)) (outbound_of tw') ->
  7 <= length (_rbuf tr) -> length (data frame) <= length (_rbuf tr) + 8 ->
  Forall delivering (recv_plan sr) ->
  length (data frame) <= length (recv_plan sr) ->
  exists tr', read_frame tr = (Ret frame, tr') /\ inbound_of tr' = [].
Proof.
  intros Hc Hw Hs Hin B7 Bp Hplan Hsteps.
  pose proof (write_spec tw (data frame)) as Hspec.
  unfold write_frame in Hw.
  destruct (write tw (data frame)) as [[u|exc|] t1] eqn:Hwr.
  - injection Hw as _ <-. destruct Hspec as (Hout & _).
    rewrite Hout, drop_app_length in Hin.
    destruct (complete_whole tr sr frame [] Hc Hs) as (tr' & s' & Hr & Hs' & Hi & _);
      auto; [now rewrite app_nil_r|].
    exists tr'. unfold inbound_of. rewrite Hs'. auto.
  - destruct (is_timeout exc); [discriminate|].
    destruct (is_OSError exc); [|discriminate]. destruct (negb _); discriminate.
  - discriminate.
Qed.

Lemma loopback_round_trip_witness :
  exists tw' tr',
    write_frame Scene.writer Scene.frame = (Ret tt, tw') /\
    read_frame (Scene.reader (outbound_of tw')) = (Ret Scene.frame, tr') /\
    inbound_of tr' = [].
Proof.
  destruct (write_frame Scene.writer Scene.frame) as [[[]|e|] tw'] eqn:Ew;
    try (vm_compute in Ew; discriminate).
  destruct (loopback_round_trip Scene.writer tw' (Scene.reader (outbound_of tw'))
              (mkSocket 3 false (outbound_of tw') (replicate 12 (Deliver 3)) [] [] 0)
              Scene.frame complete_frame Ew eq_refl eq_refl)
    as (tr' & Hr & Hi).
  - cbn. lia.
  - cbn. lia.
  - repeat constructor.
  - cbn. lia.
  - exists tw', tr'. auto.
Defined.

(** ** Reading through interruptions *)

Lemma _read_loop_patient fuel : forall t s off to_read errnos,
  sock t = Some s ->
  Forall (patient errnos) (recv_plan s) ->
  to_read <= deliveries (recv_plan s) ->
  to_read <= length (inbound s) ->
  off + to_read <= length (_rbuf t) ->
  length (recv_plan s) < fuel ->
  exists t', _read_loop fuel t off to_read false errnos = (Ret tt, t').
Proof.
  induction fuel as [|fuel IH]; intros t s off to_read errnos
    Hs Hplan Hdel Hin Hfit Hf; [lia|].
  destruct to_read as [|m]; [now eexists|].
  destruct (recv_plan s) as [|[k|e] plan] eqn:Hp; cbn [length deliveries] in *; [lia| |].
  - apply Forall_cons in Hplan as [Hk Hplan]. cbn in Hk.
    cbn [_read_loop]. rewrite Hs.
    assert (Hrecv : recv_into s (length (_rbuf t) - off) (S m) =
                    recv_step s (S m)).
    { unfold recv_into. cbn [Nat.eqb orb].
      destruct (Nat.ltb_spec (length (_rbuf t) - off) (S m)); [lia|].
      now destruct (tls s). }
    rewrite Hrecv. unfold recv_step. rewrite Hp. cbv zeta.
    set (got := take (k `min` S m) (inbound s)).
    assert (Hgot : length got = k `min` S m)
      by (unfold got; rewrite length_take; lia).
    destruct (Nat.eqb_spec (length got) 0) as [|_]; [lia|].
    assert (Hbuf : length (store_at (_rbuf t) off got) = length (_rbuf t))
      by (apply length_store_at; lia).
    apply (IH (set_rbuf (set_sock t (Some (after_recv s (length got) plan)))
                        (store_at (_rbuf t) off got))
              (after_recv s (length got) plan));
      [ reflexivity
      | exact Hplan
      | cbn; lia
      | cbn; rewrite length_drop; lia
      | cbn [_rbuf set_rbuf]; lia
      | cbn; lia ].
  - apply Forall_cons in Hplan as [[Hos Herr] Hplan].
    rewrite (_read_loop_error_step fuel t s e plan off (S m) false errnos Hs Hp)
      by lia.
    rewrite Hos, Herr. cbn [negb andb].
    apply (IH (set_sock t (Some (after_recv s 0 plan))) (after_recv s 0 plan));
      [ reflexivity | exact Hplan | cbn; lia | cbn; rewrite ?drop_0; lia
      | cbn; lia | cbn; lia ].
Qed.

(** X7. With [initial] false, an exact read goes through interruptions:
    on a connection whose receive calls each either hand over at least one
    byte or fail with one of the class's transient codes, [read] returns
    the [n] bytes the peer sent, provided the peer has sent them, [n] of
    the calls to come deliver, and the buffer holds [n] bytes.  The
    failures in between change nothing in what is returned. *)
Theorem read_through_interruptions (t : Transport) (s : Socket) (n : nat) :
  sock t = Some s ->
  Forall (patient (read_errnos (cls t))) (recv_plan s) ->
  n <= deliveries (recv_plan s) ->
  n <= length (inbound s) ->
  n <= length (_rbuf t) ->
  exists t',
    read t n false = (Ret (take n (inbound s)), t') /\
    inbound_of t' = drop n (inbound s).
Proof.
  intros Hs Hplan Hdel Hin Hfit.
  pose proof (_read_spec t n false (read_errnos (cls t))) as He.
  rewrite read_unfold. unfold _read in *.
  destruct (_read_loop_patient (S (plan_length t)) t s 0 n
              (read_errnos (cls t)) Hs Hplan Hdel Hin Hfit) as (t' & Hl).
  { unfold plan_length. rewrite Hs. lia. }
  rewrite Hl in *. destruct He as (_ & _ & -> & Hdrop).
  unfold inbound_of in *. rewrite Hs in *. exists t'. auto.
Qed.

Lemma read_through_interruptions_witness :
  exists t',
    read (Sample.tcp Sample.wire (RecvFail Sample.eintr :: Sample.pieces) [])
         5 false = (Ret (take 5 Sample.wire), t') /\
    inbound_of t' = drop 5 Sample.wire.
Proof.
  apply (read_through_interruptions
           (Sample.tcp Sample.wire (RecvFail Sample.eintr :: Sample.pieces) [])
           (mkSocket 3 false Sample.wire (RecvFail Sample.eintr :: Sample.pieces)
                     [] [] 0) 5 eq_refl).
  - repeat constructor.
  - cbn. lia.
  - cbn. lia.
  - cbn. lia.
Defined.

(** ** A peer that closes in the middle of a frame *)

Lemma _read_loop_short fuel : forall t s off to_read initial errnos,
  sock t = Some s ->
  Forall delivering (recv_plan s) ->
  length (inbound s) < to_read ->
  length (inbound s) < length (recv_plan s) ->
  off + to_read <= length (_rbuf t) ->
  length (recv_plan s) < fuel ->
  exists t',
    _read_loop fuel t off to_read initial errnos =
      (Raise (IOError "socket closed"), t').
Proof.
  induction fuel as [|fuel IH]; intros t s off to_read initial errnos
    Hs Hplan Hshort Hcalls Hfit Hf; [lia|].
  destruct to_read as [|m]; [lia|].
  destruct (recv_plan s) as [|[k|e] plan] eqn:Hp; cbn [length] in *; [lia| |].
  2:{ apply Forall_cons in Hplan as [[] _]. }
  apply Forall_cons in Hplan as [Hk Hplan]. cbn in Hk.
  cbn [_read_loop]. rewrite Hs.
  assert (Hrecv : recv_into s (length (_rbuf t) - off) (S m) =
                  recv_step s (S m)).
  { unfold recv_into. cbn [Nat.eqb orb].
    destruct (Nat.ltb_spec (length (_rbuf t) - off) (S m)); [lia|].
    now destruct (tls s). }
  rewrite Hrecv. unfold recv_step. rewrite Hp. cbv zeta.
  set (got := take (k `min` S m) (inbound s)).
  assert (Hgot : length got = (k `min` S m) `min` length (inbound s))
    by (unfold got; apply length_take).
  destruct (Nat.eqb_spec (length got) 0) as [|Hpos]; [now eexists|].
  assert (Hbuf : length (store_at (_rbuf t) off got) = length (_rbuf t))
    by (apply length_store_at; lia).
  apply (IH (set_rbuf (set_sock t (Some (after_recv s (length got) plan)))
                      (store_at (_rbuf t) off got))
            (after_recv s (length got) plan));
    [ reflexivity
    | exact Hplan
    | cbn; rewrite length_drop; lia
    | cbn; rewrite length_drop; lia
    | cbn [_rbuf set_rbuf]; lia
    | cbn; lia ].
Qed.

Lemma read_short t s n initial :
  sock t = Some s ->
  Forall delivering (recv_plan s) ->
  length (inbound s) < n ->
  length (inbound s) < length (recv_plan s) ->
  n <= length (_rbuf t) ->
  exists t', read t n initial = (Raise (IOError "socket closed"), t').
Proof.
  intros Hs Hplan Hshort Hcalls Hfit. rewrite read_unfold. unfold _read.
  destruct (_read_loop_short (S (plan_length t)) t s 0 n initial
              (read_errnos (cls t)) Hs Hplan Hshort Hcalls Hfit) as (t' & ->).
  { unfold plan_length. rewrite Hs. lia. }
  now exists t'.
Qed.

Lemma read_frame_peer_closed t t1 :
  read_frame_body t = (Raise (IOError "socket closed"), t1) ->
  read_frame t = (Raise (IOError "socket closed"), set_connected t1 false).
Proof. intros H. unfold read_frame. now rewrite H. Qed.

(** X8. A peer that closes the connection before a frame is complete gets
    no frame out of [read_frame].  The read buffer holds the 7 header
    bytes; the receive calls each hand over at least one byte while there
    is one, and more of them are to come than the peer has sent bytes, so
    that one of them reports the end.  When the bytes the peer sent stop
    short of the 7 header bytes, or the header came whole, announces a
    payload that the buffer holds, and the bytes stop short of that
    payload and the terminator, [read_frame] raises
    [IOError('socket closed')] and [connected] is false afterwards.
    (What a header that announces more than the buffer holds leads to on
    a plain socket is X13.) *)
Theorem read_frame_truncated (t : Transport) (s : Socket) :
  sock t = Some s ->
  Forall delivering (recv_plan s) ->
  length (inbound s) < length (recv_plan s) ->
  7 <= length (_rbuf t) ->
  length (inbound s) < 7 \/
  (payload_size (mkFrame (take 7 (inbound s))) <= length (_rbuf t) /\
   length (inbound s) < 7 + payload_size (mkFrame (take 7 (inbound s))) + 1) ->
  exists t',
    read_frame t = (Raise (IOError "socket closed"), t') /\
    connected t' = false.
Proof.
  intros Hs Hplan Hcalls B7 Hcut.
  assert (Hdone : forall t1,
            read_frame_body t = (Raise (IOError "socket closed"), t1) ->
            exists t', read_frame t = (Raise (IOError "socket closed"), t') /\
                       connected t' = false).
  { intros t1 H. apply read_frame_peer_closed in H. eauto. }
  destruct (Nat.lt_ge_cases (length (inbound s)) 7) as [Hlt|Hge].
  { destruct (read_short t s 7 true Hs Hplan Hlt Hcalls B7) as (t1 & R1).
    apply (Hdone t1). unfold read_frame_body. now rewrite R1. }
  destruct Hcut as [Hlt|[Bp Hlt]]; [lia|].
  destruct (read_progress t s 7 true Hs Hplan)
    as (t1 & s1 & R1 & Hs1 & I1 & P1 & N1 & B1); [lia..|].
  set (p := payload_size (mkFrame (take 7 (inbound s)))) in *.
  assert (L1 : length (inbound s1) = length (inbound s) - 7)
    by (rewrite I1; apply length_drop).
  destruct (Nat.lt_ge_cases (length (inbound s1)) p) as [Hlt2|Hge2].
  { destruct (read_short t1 s1 p false Hs1 P1) as (t2 & R2); [lia..|].
    apply (Hdone t2). unfold read_frame_body. cbn [data app]. subst p.
    now rewrite R1, R2. }
  destruct (read_progress t1 s1 p false Hs1 P1)
    as (t2 & s2 & R2 & Hs2 & I2 & P2 & N2 & B2); [lia..|].
  assert (L2 : length (inbound s2) = length (inbound s1) - p)
    by (rewrite I2; apply length_drop).
  destruct (read_short t2 s2 1 false Hs2 P2) as (t3 & R3); [lia..|].
  apply (Hdone t3). unfold read_frame_body. cbn [data app]. subst p.
  now rewrite R1, R2, R3.
Qed.

Lemma read_frame_truncated_witness :
  exists t',
    read_frame (Scene.reader (take 8 Sample.wire)) =
      (Raise (IOError "socket closed"), t') /\
    connected t' = false.
Proof.
  apply (read_frame_truncated (Scene.reader (take 8 Sample.wire))
           (mkSocket 3 false (take 8 Sample.wire) (replicate 12 (Deliver 3))
                     [] [] 0) eq_refl).
  - repeat constructor.
  - cbn. lia.
  - cbn. lia.
  - right. vm_compute. lia.
Defined.

(** ** A transport that was constructed *)

(** The socket the loop ends with is a fresh socket of a candidate that
    accepted, and it is open. *)
Lemma connect_loop_ret addrinfo : forall os before le s res os1,
  connect_loop addrinfo os before = (Ret le, Some (s, res), os1) ->
  In res addrinfo /\ accepts res /\
  fd s ∈ open_fds os1 /\ tls s = false /\
  inbound s = peer_inbound res /\ recv_plan s = peer_recv_plan res /\
  send_plan s = peer_send_plan res /\ outbound s = [] /\ io_calls s = 0.
Proof.
  induction addrinfo as [|c rest IH]; intros os before le s res os1 H;
    [discriminate|].
  cbn [connect_loop] in H.
  destruct (socket_err c) as [exc|] eqn:Hsock.
  { destruct (is_OSError exc); discriminate. }
  cbn [socket_socket] in H.
  destruct (connect_err c) as [exc|] eqn:Hconn.
  - destruct (is_OSError exc); [|discriminate].
    apply IH in H as (Hin & H). split; [now right|exact H].
  - injection H as _ <- <- <-. cbn. split; [now left|]. split; [now split|].
    repeat split. apply elem_of_union_r, elem_of_singleton. reflexivity.
Qed.

(** It is the first candidate that accepted: every candidate before it
    had its socket created and refused the connection. *)
Lemma connect_loop_first addrinfo : forall os before le s res os1,
  connect_loop addrinfo os before = (Ret le, Some (s, res), os1) ->
  exists pre post,
    addrinfo = pre ++ res :: post /\ Forall refuses pre /\ accepts res.
Proof.
  induction addrinfo as [|c rest IH]; intros os before le s res os1 H;
    [discriminate|].
  cbn [connect_loop] in H.
  destruct (socket_err c) as [exc|] eqn:Hsock.
  { destruct (is_OSError exc); discriminate. }
  cbn [socket_socket] in H.
  destruct (connect_err c) as [exc|] eqn:Hconn.
  - destruct (is_OSError exc) eqn:Hos; [|discriminate].
    apply IH in H as (pre & post & -> & Hpre & Hacc).
    exists (c :: pre), post. split; [reflexivity|]. split; [|exact Hacc].
    constructor; [|exact Hpre]. split; [exact Hsock|]. now exists exc.
  - injection H as _ _ <- _. exists [], rest. split; [reflexivity|].
    split; [constructor|now split].
Qed.

(** A candidate that refuses does not accept. *)
Lemma refuses_not_accepts res : refuses res -> ~ accepts res.
Proof. intros (_ & exc & Hc & _) [_ Ha]. congruence. Qed.

(** The steps after the connect, when they all succeed. *)
Lemma setup_body_ret t s res os t' os' :
  sock t = Some s -> tls s = false ->
  setup_body t res os = (Ret tt, t', os') ->
  os' = os /\
  outbound_of t' = outbound s ++ AMQP_PROTOCOL_HEADER /\
  inbound_of t' = inbound s /\ recv_plan_of t' = recv_plan s /\
  _rbuf t' = _rbuf t /\
  sock_id t' = Some (fd s, match cls t with SSLTransport => true
                                          | TCPTransport => false end).
Proof.
  intros Hs Htls. unfold setup_body.
  destruct (nodelay_err res); [discriminate|].
  destruct (keepalive_err res); [discriminate|].
  assert (Hfin : forall t1, sock_id t1 = Some (fd s, match cls t with
                                                     | SSLTransport => true
                                                     | TCPTransport => false end) ->
            outbound_of t1 = outbound s -> inbound_of t1 = inbound s ->
            recv_plan_of t1 = recv_plan s -> _rbuf t1 = _rbuf t ->
            (let '(r, t2) := write t1 AMQP_PROTOCOL_HEADER in (r, t2, os)) =
              (Ret tt, t', os') ->
            os' = os /\
            outbound_of t' = outbound s ++ AMQP_PROTOCOL_HEADER /\
            inbound_of t' = inbound s /\ recv_plan_of t' = recv_plan s /\
            _rbuf t' = _rbuf t /\
            sock_id t' = Some (fd s, match cls t with SSLTransport => true
                                                    | TCPTransport => false end)).
  { intros t1 Hid Hout Hin Hplan Hbuf H.
    pose proof (write_spec t1 AMQP_PROTOCOL_HEADER) as Hw.
    destruct (write t1 AMQP_PROTOCOL_HEADER) as [r t2] eqn:Ew.
    apply write_static in Ew as (Hid2 & _). injection H as -> <- <-.
    destruct Hw as (Ho & Hi & Hp & Hb).
    repeat split; congruence. }
  unfold _setup_transport. destruct (cls t) eqn:Hc.
  - apply Hfin; unfold sock_id, outbound_of, inbound_of, recv_plan_of;
      rewrite ?Hs, ?Htls; reflexivity.
  - destruct (ssl_opts t) as [[| | | | |d]|]; try discriminate.
    rewrite Hs. destruct (handshake_err res); [discriminate|].
    apply Hfin; reflexivity.
Qed.

(** X9. A transport whose construction succeeded is connected to the first
    candidate that accepted: every candidate before it in the list had
    its socket created and refused the connection, and none of them
    accepts.  The descriptor is open; it is a TLS socket exactly for
    [SSLTransport]; the 8-byte protocol header, and nothing else, has
    been sent; nothing has been read; and the read buffer is [buf_size]
    zero bytes. *)
Theorem constructed (c : TransportClass) (opts : option Val) (buf_size : nat)
    (addrinfo : list Candidate) (os : OS) (self : Transport) (os' : OS) :
  __init__ c opts buf_size addrinfo os = (Ret tt, self, os') ->
  connected self = true /\
  cls self = c /\
  _rbuf self = replicate buf_size x00 /\
  outbound_of self = AMQP_PROTOCOL_HEADER /\
  exists s res pre post,
    addrinfo = pre ++ res :: post /\
    Forall refuses pre /\ (forall r, In r pre -> ~ accepts r) /\
    accepts res /\
    sock self = Some s /\ fd s ∈ open_fds os' /\
    tls s = match c with SSLTransport => true | TCPTransport => false end /\
    inbound s = peer_inbound res /\ recv_plan s = peer_recv_plan res.
Proof.
  intros H.
  destruct (connect_loop addrinfo os None) as [[[le|exc|] [[s res]|]] os1] eqn:Hloop;
    try (unfold __init__ in H; rewrite Hloop in H; discriminate).
  rewrite (__init___connected _ _ _ _ _ _ _ _ _ Hloop) in H.
  pose proof (connect_loop_first _ _ _ _ _ _ _ Hloop)
    as (pre & post & Hsplit & Hpre & Hacc).
  apply connect_loop_ret in Hloop
    as (_ & _ & Hopen & Htls & Hinb & Hrp & Hsp & Hout & Hio).
  destruct (setup_body _ res os1) as [[[[]|exc|] self0] os2] eqn:Hsetup.
  - injection H as <- <-.
    pose proof (setup_body_spec _ _ _ _ _ _ Hsetup) as (_ & Hcls & _).
    apply (setup_body_ret _ s) in Hsetup as (-> & Ho & Hi & Hp & Hb & Hid);
      [|reflexivity|exact Htls].
    rewrite Hout in Ho. cbn in Hb, Hid, Hcls.
    unfold outbound_of, inbound_of, recv_plan_of, sock_id in *.
    cbn [sock set_connected cls _rbuf connected inst_connected default].
    destruct (sock self0) as [s0|]; [|discriminate].
    injection Hid as Hfd Htls0.
    split; [reflexivity|]. split; [exact Hcls|]. split; [exact Hb|].
    split; [exact Ho|].
    exists s0, res, pre, post.
    split; [exact Hsplit|]. split; [exact Hpre|]. split.
    { intros r Hr. apply refuses_not_accepts.
      exact (proj1 (List.Forall_forall _ _) Hpre r Hr). }
    split; [exact Hacc|].
    split; [reflexivity|]. split; [now rewrite Hfd|]. split; [exact Htls0|].
    split; congruence.
  - destruct (is_OSError exc && negb (unavail exc)); discriminate.
  - discriminate.
Qed.

(** Nobody listens at the first address; of the two servers that follow,
    the transport is on the first. *)
Lemma constructed_witness :
  exists self os',
    create_transport [Sample.nobody; Scene.greeter; Sample.server]
                     Sample.os0 16 (VDict []) = (Ret tt, self, os') /\
    connected self = true /\
    outbound_of self = AMQP_PROTOCOL_HEADER /\
    inbound_of self = peer_inbound Scene.greeter /\
    inbound_of self <> peer_inbound Sample.server.
Proof.
  destruct (create_transport [Sample.nobody; Scene.greeter; Sample.server]
              Sample.os0 16 (VDict []))
    as [[[[]|e|] self] os'] eqn:E; try (vm_compute in E; discriminate).
  pose proof (constructed SSLTransport (Some (VDict [])) 16
                [Sample.nobody; Scene.greeter; Sample.server] Sample.os0 self os' E)
    as (Hc & _ & _ & Ho & _).
  exists self, os'. split; [reflexivity|]. split; [exact Hc|]. split; [exact Ho|].
  vm_compute in E. injection E as <- <-. split; [reflexivity|discriminate].
Defined.

(** ** A socket that cannot be created *)

(** X10. When [socket.socket] itself fails with an OS error for a
    candidate, after candidates that refused, the handler calls [close]
    on [None]: the constructor ends with [AttributeError] instead of the
    OS error, holds no socket, leaves no new descriptor open, and the
    candidates that follow are never tried. *)
Theorem socket_failure_masked (c : TransportClass) (opts : option Val)
    (buf_size : nat) (pre post : list Candidate) (res : Candidate)
    (exc : Exc) (os : OS) :
  Forall refuses pre ->
  socket_err res = Some exc -> is_OSError exc = true ->
  __init__ c opts buf_size (pre ++ res :: post) os =
    (Raise (no_attribute "close"), new_transport c opts buf_size,
     after_refusals os (length pre)) /\
  open_fds (after_refusals os (length pre)) ⊆ open_fds os.
Proof.
  intros Hpre Hsock Hos. split; [|apply after_refusals_spec].
  unfold __init__. rewrite (connect_loop_refused pre _ os None Hpre).
  cbn [connect_loop]. rewrite Hsock, Hos. reflexivity.
Qed.

Lemma socket_failure_masked_witness :
  __init__ TCPTransport None 16
           [Sample.nobody; Sample.unsupported; Sample.server] Sample.os0 =
    (Raise (no_attribute "close"), new_transport TCPTransport None 16,
     after_refusals Sample.os0 1) /\
  open_fds (after_refusals Sample.os0 1) ⊆ open_fds Sample.os0.
Proof.
  apply (socket_failure_masked TCPTransport None 16 [Sample.nobody] [Sample.server]
           Sample.unsupported
           (mkExc socket_error (Some 97%Z) "Address family not supported by protocol")
           Sample.os0).
  - repeat constructor. exists Sample.econnrefused. now split.
  - reflexivity.
  - reflexivity.
Defined.

(** ** Closing *)

Lemma read_no_socket t n initial :
  sock t = None -> 0 < n ->
  read t n initial = (Raise (no_attribute "recv_into"), t).
Proof.
  intros Hs Hn. rewrite read_unfold. unfold _read, plan_length. rewrite Hs.
  destruct n as [|m]; [lia|]. cbn [_read_loop]. now rewrite Hs.
Qed.

(** X11. [close] without a failing shutdown releases the descriptor, drops
    the socket and sets [connected] to false, and what is left refuses
    every frame operation without a socket call: [read_frame] raises
    [AttributeError], and so does [write_frame] on a [TCPTransport], while
    on an [SSLTransport] it raises [IOError('Socket closed')]; the
    transport and the descriptors stay as [close] left them.  A second
    [close] changes nothing and returns, even where a shutdown would
    fail. *)
Theorem closed_transport (t : Transport) (os : OS) :
  let '(r, t1, os1) := close t None os in
  r = Ret tt /\
  sock t1 = None /\ connected t1 = false /\
  (forall s, sock t = Some s ->
     (fd s ∉ open_fds os1) /\ open_fds os1 = open_fds os ∖ {[fd s]}) /\
  read_frame t1 = (Raise (no_attribute "recv_into"), t1) /\
  (forall frame,
     write_frame t1 frame =
       (match cls t with
        | TCPTransport => Raise (no_attribute "sendall")
        | SSLTransport => Raise (IOError "Socket closed")
        end, t1)) /\
  (forall err, close t1 err os1 = (Ret tt, t1, os1)).
Proof.
  unfold close. destruct (sock t) as [s|] eqn:Hs.
  - split; [reflexivity|]. split; [reflexivity|]. split; [reflexivity|].
    split; [|split; [|split]].
    + intros s0 [= <-]. split; [|reflexivity]. cbn.
      intros Hin. apply elem_of_difference in Hin as [_ Hne].
      apply Hne, elem_of_singleton. reflexivity.
    + unfold read_frame, read_frame_body.
      now rewrite read_no_socket by (cbn; auto; lia).
    + intros frame. unfold write_frame, write. cbn [cls set_connected set_sock sock].
      now destruct (cls t).
    + reflexivity.
  - split; [reflexivity|]. split; [exact Hs|]. split; [reflexivity|].
    split; [|split; [|split]].
    + discriminate.
    + unfold read_frame, read_frame_body.
      now rewrite read_no_socket by (cbn; auto; lia).
    + intros frame. unfold write_frame, write. cbn [cls set_connected sock].
      rewrite Hs. now destruct (cls t).
    + intros err. cbn [sock set_connected]. now rewrite Hs.
Qed.

Lemma closed_transport_witness :
  exists t1 os1,
    close Sample.good None (mkOS 4 {[3]}) = (Ret tt, t1, os1) /\
    (3 ∉ open_fds os1) /\
    read_frame t1 = (Raise (no_attribute "recv_into"), t1) /\
    write_frame t1 Scene.frame = (Raise (no_attribute "sendall"), t1) /\
    close t1 (Some Sample.econnreset) os1 = (Ret tt, t1, os1).
Proof.
  pose proof (closed_transport Sample.good (mkOS 4 {[3]})) as H.
  destruct (close Sample.good None (mkOS 4 {[3]})) as [[r t1] os1] eqn:E.
  destruct H as (Hr & _ & _ & Hfd & Hrd & Hw & Hc).
  exists t1, os1. subst r. split; [reflexivity|].
  split; [exact (proj1 (Hfd _ eq_refl))|].
  split; [exact Hrd|]. split; [exact (Hw Scene.frame)|exact (Hc _)].
Defined.

(** X12. [__del__] always leaves the transport without a socket, and
    opens nothing.  The descriptor of the socket it held is closed
    whenever [close] ran to its end or the runtime finalises the socket
    object that was dropped.  [connected] is cleared only if the [socket]
    module is still there and [close] ran to its end: when the module is
    gone, or the shutdown inside [close] fails (the error is swallowed),
    [connected] keeps its value, and the descriptor is closed by the
    finalisation alone, staying open while something else refers to the
    socket. *)
Theorem del_drops_socket (t : Transport) (socket_alive : bool)
    (shutdown_err : option Exc) (finalised : bool) (os : OS) :
  let '(t', os') := __del__ t socket_alive shutdown_err finalised os in
  sock t' = None /\
  open_fds os' ⊆ open_fds os /\
  (forall s, sock t = Some s ->
     (socket_alive = true /\ shutdown_err = None) \/ finalised = true ->
     fd s ∉ open_fds os') /\
  (socket_alive = true -> (sock t = None \/ shutdown_err = None) ->
   connected t' = false) /\
  ((socket_alive = false \/ (is_Some (sock t) /\ is_Some shutdown_err)) ->
   inst_connected t' = inst_connected t /\
   (finalised = false -> os' = os)).
Proof.
  assert (Hout : forall (X : gset nat) n, n ∉ X ∖ {[n]}).
  { intros X n Hin. apply elem_of_difference in Hin as [_ Hne].
    apply Hne, elem_of_singleton. reflexivity. }
  assert (Hsub : forall (X : gset nat) n, X ∖ {[n]} ⊆ X).
  { intros X n x Hx. now apply elem_of_difference in Hx as [Hx _]. }
  unfold __del__, close.
  destruct (sock t) as [s|] eqn:Hs.
  - destruct socket_alive, shutdown_err as [exc|], finalised;
      cbn [sock set_sock set_connected close_fd open_fds]; rewrite ?Hs;
      cbn [close_fd open_fds inst_connected set_sock set_connected connected default].
    all: split; [reflexivity|]; split; [first [reflexivity | apply Hsub]|].
    all: split; [intros s0 [= <-] [[? ?]|?]; try discriminate; apply Hout|].
    all: split; [intros ? [?|?]; first [discriminate | reflexivity]|].
    all: intros [?|[_ [x ?]]]; try discriminate;
      (split; [reflexivity|]); intros ?; first [discriminate | reflexivity].
  - destruct socket_alive; cbn [sock set_sock set_connected]; rewrite ?Hs;
      cbn [inst_connected set_sock set_connected connected default].
    all: split; [reflexivity|]; split; [reflexivity|].
    all: split; [discriminate|].
    all: split; [intros ? ?; first [discriminate | reflexivity]|].
    all: intros [?|[[x ?] _]]; try discriminate; now split.
Qed.

Lemma del_drops_socket_witness :
  (exists t' os',
     __del__ Sample.good true None false (mkOS 4 {[3]}) = (t', os') /\
     sock t' = None /\ connected t' = false /\ (3 ∉ open_fds os')) /\
  (exists t' os',
     __del__ Sample.good true (Some Sample.econnreset) true (mkOS 4 {[3]}) =
       (t', os') /\
     sock t' = None /\ connected t' = true /\ (3 ∉ open_fds os')) /\
  (exists t' os',
     __del__ Sample.good true (Some Sample.econnreset) false (mkOS 4 {[3]}) =
       (t', os') /\
     sock t' = None /\ connected t' = true /\ os' = mkOS 4 {[3]}).
Proof.
  split; [|split].
  - pose proof (del_drops_socket Sample.good true None false (mkOS 4 {[3]})) as H.
    destruct (__del__ Sample.good true None false (mkOS 4 {[3]}))
      as [t' os'] eqn:E.
    destruct H as (Hs & _ & Hfd & Hc & _).
    exists t', os'. split; [reflexivity|]. split; [exact Hs|].
    split; [exact (Hc eq_refl (or_intror eq_refl))|].
    exact (Hfd _ eq_refl (or_introl (conj eq_refl eq_refl))).
  - pose proof (del_drops_socket Sample.good true (Some Sample.econnreset) true
                  (mkOS 4 {[3]})) as H.
    destruct (__del__ Sample.good true (Some Sample.econnreset) true (mkOS 4 {[3]}))
      as [t' os'] eqn:E.
    destruct H as (Hs & _ & Hfd & _ & Hk).
    destruct (Hk (or_intror (conj (ex_intro _ _ eq_refl) (ex_intro _ _ eq_refl))))
      as [Hi _].
    exists t', os'. split; [reflexivity|]. split; [exact Hs|].
    split; [unfold connected; now rewrite Hi|].
    exact (Hfd _ eq_refl (or_intror eq_refl)).
  - pose proof (del_drops_socket Sample.good true (Some Sample.econnreset) false
                  (mkOS 4 {[3]})) as H.
    destruct (__del__ Sample.good true (Some Sample.econnreset) false (mkOS 4 {[3]}))
      as [t' os'] eqn:E.
    destruct H as (Hs & _ & _ & _ & Hk).
    destruct (Hk (or_intror (conj (ex_intro _ _ eq_refl) (ex_intro _ _ eq_refl))))
      as [Hi Ho].
    exists t', os'. split; [reflexivity|]. split; [exact Hs|].
    split; [unfold connected; now rewrite Hi|exact (Ho eq_refl)].
Defined.

(** ** A payload larger than the buffer *)

(** X13. On a plain TCP transport, a header that announces a payload
    larger than the read buffer makes [read_frame] raise [ValueError]
    once the header has been read: no further receive call is issued, the
    payload stays unread, and, [ValueError] being no OS error,
    [connected] is left as it was. *)
Theorem oversized_payload (t : Transport) (s : Socket) (hdr : list byte)
    (t1 : Transport) :
  sock t = Some s -> tls s = false ->
  read t 7 true = (Ret hdr, t1) ->
  length (_rbuf t) < payload_size (mkFrame hdr) ->
  read_frame t =
    (Raise (mkExc ValueError None "buffer too small for requested bytes"), t1) /\
  inst_connected t1 = inst_connected t /\
  inbound_of t1 = drop 7 (inbound_of t).
Proof.
  intros Hs Htls H1 Hbig.
  pose proof (read_keeps _ _ _ _ _ H1) as (Hb & _ & _ & Hc & Hid & _).
  pose proof (read_ret_stream _ _ _ _ _ H1) as (_ & _ & _ & Hin).
  split; [|auto].
  unfold read_frame, read_frame_body. cbn [data app]. rewrite H1.
  set (p := payload_size (mkFrame hdr)) in *.
  assert (H2 : read t1 p false =
               (Raise (mkExc ValueError None "buffer too small for requested bytes"),
                t1)).
  { rewrite read_unfold. unfold _read.
    unfold sock_id in Hid. rewrite Hs, Htls in Hid.
    destruct (sock t1) as [s1|] eqn:Hs1; [|discriminate].
    injection Hid as Hfd Htls1.
    destruct p as [|m]; [lia|]. cbn [_read_loop]. rewrite Hs1.
    unfold recv_into. rewrite Htls1. cbn [Nat.eqb].
    rewrite Nat.sub_0_r.
    destruct (Nat.ltb_spec (length (_rbuf t1)) (S m)); [|lia].
    cbn. f_equal. destruct t1. cbn in *. now subst. }
  now rewrite H2.
Qed.

Lemma oversized_payload_witness :
  exists t1,
    read_frame Scene.oversized =
      (Raise (mkExc ValueError None "buffer too small for requested bytes"), t1) /\
    connected t1 = true /\
    inbound_of t1 = [xaa; xbb].
Proof.
  destruct (read Scene.oversized 7 true) as [[hdr|e|] t1] eqn:E;
    try (vm_compute in E; discriminate).
  destruct (oversized_payload Scene.oversized
              (mkSocket 3 false [x01; x00; x01; x00; x00; x01; x00; xaa; xbb]
                        [Deliver 100; Deliver 100] [] [] 0)
              hdr t1 eq_refl eq_refl E) as (Hr & Hc & Hi).
  - vm_compute in E. injection E as <- <-. vm_compute. lia.
  - exists t1. split; [exact Hr|]. split.
    + unfold connected. now rewrite Hc.
    + exact Hi.
Defined.

(** ** Reading and writing do not disturb each other *)

Lemma recv_step_view a b len :
  recv_side a = recv_side b ->
  fst (recv_step a len) = fst (recv_step b len) /\
  recv_side (snd (recv_step a len)) = recv_side (snd (recv_step b len)).
Proof.
  unfold recv_side. intros [= H1 H2 H3].
  unfold recv_step. rewrite H3, H2.
  destruct (recv_plan b) as [|[k|e] plan] eqn:Hp; cbn;
    rewrite ?H1, ?H2, ?H3, ?Hp; now split.
Qed.

Lemma recv_into_view a b buflen nbytes :
  recv_side a = recv_side b ->
  fst (recv_into a buflen nbytes) = fst (recv_into b buflen nbytes) /\
  recv_side (snd (recv_into a buflen nbytes)) =
  recv_side (snd (recv_into b buflen nbytes)).
Proof.
  intros Hv. pose proof Hv as Hv'. unfold recv_side in Hv'.
  injection Hv' as H1 _ _.
  unfold recv_into. rewrite H1. destruct (tls b).
  - destruct (_ =? 0); [now split|]. now apply recv_step_view.
  - destruct (_ <? _); [now split|]. now apply recv_step_view.
Qed.

Lemma recv_view_inv t u :
  recv_view t = recv_view u ->
  cls t = cls u /\ _rbuf t = _rbuf u /\
  match sock t, sock u with
  | Some a, Some b => recv_side a = recv_side b
  | None, None => True
  | _, _ => False
  end.
Proof.
  unfold recv_view. intros H.
  assert (H1 : cls t = cls u) by congruence.
  assert (H2 : _rbuf t = _rbuf u) by congruence.
  assert (H3 : recv_side <$> sock t = recv_side <$> sock u) by congruence.
  destruct (sock t), (sock u); cbn in H3; try discriminate; repeat split; auto.
  congruence.
Qed.

Lemma _read_loop_view fuel : forall t u off to_read initial errnos,
  recv_view t = recv_view u ->
  fst (_read_loop fuel t off to_read initial errnos) =
  fst (_read_loop fuel u off to_read initial errnos) /\
  recv_view (snd (_read_loop fuel t off to_read initial errnos)) =
  recv_view (snd (_read_loop fuel u off to_read initial errnos)).
Proof.
  induction fuel as [|fuel IH]; intros t u off to_read initial errnos Hv.
  - destruct to_read; now split.
  - destruct to_read as [|m]; [now split|].
    cbn [_read_loop]. destruct (recv_view_inv t u Hv) as (Hcls & Hbuf & Hside).
    destruct (sock t) as [a|] eqn:Ha, (sock u) as [b|] eqn:Hb;
      try contradiction; [|now split].
    rewrite Hbuf.
    destruct (recv_into_view a b (length (_rbuf u) - off) (S m) Hside) as [Hr Hs].
    destruct (recv_into a _ _) as [ra a'], (recv_into b _ _) as [rb b'].
    cbn [fst snd] in Hr, Hs. subst rb.
    assert (Hnext : forall buf,
              recv_view (set_rbuf (set_sock t (Some a')) buf) =
              recv_view (set_rbuf (set_sock u (Some b')) buf)).
    { intros buf. unfold recv_view. cbn. now rewrite Hcls, Hs. }
    assert (Hnext' : recv_view (set_sock t (Some a')) =
                     recv_view (set_sock u (Some b'))).
    { unfold recv_view. cbn. now rewrite Hcls, Hbuf, Hs. }
    destruct ra as [got|exc|].
    + destruct (length got =? 0); [split; [reflexivity|apply Hnext]|].
      apply IH, Hnext.
    + destruct (is_OSError exc && _); [apply IH, Hnext'|].
      split; [reflexivity|apply Hnext'].
    + split; [reflexivity|apply Hnext'].
Qed.

Lemma read_view t u n initial :
  recv_view t = recv_view u ->
  fst (read t n initial) = fst (read u n initial) /\
  recv_view (snd (read t n initial)) = recv_view (snd (read u n initial)).
Proof.
  intros Hv. rewrite !read_unfold. unfold _read.
  assert (Hcls : cls t = cls u) by (unfold recv_view in Hv; congruence).
  assert (Hplan : plan_length t = plan_length u).
  { unfold plan_length. destruct (recv_view_inv t u Hv) as (_ & _ & Hside).
    destruct (sock t), (sock u); try contradiction; [|reflexivity].
    unfold recv_side in Hside. congruence. }
  rewrite Hcls, Hplan.
  destruct (_read_loop_view (S (plan_length u)) t u 0 n initial
              (read_errnos (cls u)) Hv) as [Hr Hs].
  destruct (_read_loop _ t 0 n initial _) as [[[]|e|] t1],
           (_read_loop _ u 0 n initial _) as [[[]|e'|] u1];
    cbn [fst snd] in *; try discriminate; split; auto.
  - unfold recv_view in Hs. f_equal. f_equal. congruence.
  - congruence.
Qed.

Lemma read_frame_body_view t u :
  recv_view t = recv_view u ->
  fst (read_frame_body t) = fst (read_frame_body u) /\
  recv_view (snd (read_frame_body t)) = recv_view (snd (read_frame_body u)).
Proof.
  intros Hv. unfold read_frame_body. cbn [data app].
  destruct (read_view t u 7 true Hv) as [R1 V1].
  destruct (read t 7 true) as [[hdr|e|] t1], (read u 7 true) as [[hdr'|e'|] u1];
    cbn [fst snd] in *; try discriminate; try (split; [congruence|exact V1]).
  injection R1 as <-.
  destruct (read_view t1 u1 (payload_size (mkFrame hdr)) false V1) as [R2 V2].
  destruct (read t1 _ false) as [[pl|e|] t2], (read u1 _ false) as [[pl'|e'|] u2];
    cbn [fst snd] in *; try discriminate; try (split; [congruence|exact V2]).
  injection R2 as <-.
  destruct (read_view t2 u2 1 false V2) as [R3 V3].
  destruct (read t2 1 false) as [[tm|e|] t3], (read u2 1 false) as [[tm'|e'|] u3];
    cbn [fst snd] in *; try discriminate; try (split; [congruence|exact V3]).
  injection R3 as <-. destruct tm; split; auto.
Qed.

Lemma read_frame_view t u :
  recv_view t = recv_view u ->
  fst (read_frame t) = fst (read_frame u) /\
  inbound_of (snd (read_frame t)) = inbound_of (snd (read_frame u)).
Proof.
  intros Hv. unfold read_frame.
  destruct (read_frame_body_view t u Hv) as [Hr Hs].
  destruct (read_frame_body t) as [r t1], (read_frame_body u) as [r' u1].
  cbn [fst snd] in Hr, Hs. subst r'.
  assert (Hin : inbound_of t1 = inbound_of u1).
  { destruct (recv_view_inv t1 u1 Hs) as (_ & _ & Hside). unfold inbound_of.
    destruct (sock t1), (sock u1); try contradiction; [|reflexivity].
    unfold recv_side in Hside. congruence. }
  destruct r as [[frame i]|exc|]; [| |now split].
  - now destruct (_ =? _)%N.
  - destruct (is_OSError exc); [|now split].
    destruct (_ && _); [now split|]. now destruct (_ && _).
Qed.

Lemma sendall_loop_fst plan : forall bytes sent calls sent' calls',
  fst (sendall_loop plan bytes sent calls) =
  fst (sendall_loop plan bytes sent' calls').
Proof.
  induction plan as [|[k|e] plan IH]; intros bytes sent calls sent' calls';
    destruct bytes as [|b bytes]; cbn [sendall_loop]; try reflexivity.
  apply IH.
Qed.

Lemma ssl_write_loop_fst fuel : forall a b bytes,
  send_plan a = send_plan b ->
  fst (ssl_write_loop fuel a bytes) = fst (ssl_write_loop fuel b bytes).
Proof.
  induction fuel as [|fuel IH]; intros a b bytes Hp.
  - now destruct bytes.
  - destruct bytes as [|x bytes]; [reflexivity|].
    cbn [ssl_write_loop]. unfold ssl_write. rewrite Hp.
    destruct (send_plan b) as [|[k|e] plan]; try reflexivity.
    cbv zeta. destruct (_ =? 0); [reflexivity|]. now apply IH.
Qed.

Lemma write_view t u bytes :
  send_view t = send_view u -> fst (write t bytes) = fst (write u bytes).
Proof.
  unfold send_view. intros H.
  assert (Hc : cls t = cls u) by congruence.
  assert (Hs : (fun s => (tls s, send_plan s)) <$> sock t =
               (fun s => (tls s, send_plan s)) <$> sock u) by congruence.
  unfold write. rewrite Hc.
  destruct (sock t) as [a|], (sock u) as [b|]; cbn in Hs; try discriminate;
    [|now destruct (cls u)].
  injection Hs as Htls Hplan.
  destruct (cls u).
  - unfold sendall. rewrite Hplan.
    pose proof (sendall_loop_fst (send_plan b) bytes (outbound a) (io_calls a)
                  (outbound b) (io_calls b)) as Hf.
    destruct (sendall_loop _ _ (outbound a) _) as [r1 [[p1 s1] c1]],
             (sendall_loop _ _ (outbound b) _) as [r2 [[p2 s2] c2]].
    exact Hf.
  - rewrite Htls, Hplan. destruct (tls b); [|reflexivity].
    pose proof (ssl_write_loop_fst (S (length (send_plan b))) a b bytes Hplan) as Hf.
    destruct (ssl_write_loop _ a bytes), (ssl_write_loop _ b bytes). exact Hf.
Qed.

Lemma write_recv_view t bytes : recv_view (snd (write t bytes)) = recv_view t.
Proof.
  unfold write, recv_view.
  destruct (cls t) eqn:Hc, (sock t) as [s|] eqn:Hs; cbn [snd]; rewrite ?Hs, ?Hc;
    try reflexivity.
  - unfold sendall.
    destruct (sendall_loop _ _ _ _) as [r [[plan' sent'] calls']]. cbn.
    now rewrite Hc.
  - destruct (tls s) eqn:Htls; [|cbn; now rewrite Hs, Hc].
    destruct (ssl_write_loop _ s bytes) as [r s'] eqn:Hl.
    pose proof (ssl_write_loop_recv _ _ _ _ _ Hl) as [Hin Hplan].
    apply ssl_write_loop_static in Hl as [_ Ht].
    cbn. unfold recv_side. now rewrite Hc, Hin, Hplan, Ht.
Qed.

Lemma write_frame_recv_view t frame :
  recv_view (snd (write_frame t frame)) = recv_view t.
Proof.
  unfold write_frame. pose proof (write_recv_view t (data frame)) as H.
  destruct (write t (data frame)) as [[u|exc|] t1]; cbn [snd] in *; auto.
  destruct (is_timeout exc); [exact H|].
  destruct (is_OSError exc); [|exact H]. now destruct (negb _).
Qed.

Lemma read_frame_send_view t : send_view (snd (read_frame t)) = send_view t.
Proof.
  unfold read_frame.
  destruct (read_frame_body t) as [r t1] eqn:Hb.
  apply read_frame_body_keeps in Hb as (_ & Hc & _ & _ & Hid & _ & Hp & _).
  assert (H : send_view t1 = send_view t).
  { unfold send_view, sock_id, send_plan_of in *. rewrite Hc.
    destruct (sock t1), (sock t); try discriminate; [|reflexivity].
    cbn. injection Hid as _ Ht. now rewrite Ht, Hp. }
  destruct r as [[frame i]|exc|]; cbn [snd]; auto.
  - now destruct (_ =? _)%N.
  - destruct (is_OSError exc); [|exact H].
    destruct (_ && _); [exact H|]. now destruct (_ && _).
Qed.

(** X14. Reading and writing do not disturb each other.  What
    [read_frame] returns or raises, and where it leaves the peer's byte
    stream, is the same whether or not a [write_frame] went before it; and
    what [write_frame] returns or raises is the same whether or not a
    [read_frame] went before it. *)
Theorem duplex_independent (t : Transport) (frame : Frame) :
  fst (read_frame (snd (write_frame t frame))) = fst (read_frame t) /\
  inbound_of (snd (read_frame (snd (write_frame t frame)))) =
  inbound_of (snd (read_frame t)) /\
  fst (write_frame (snd (read_frame t)) frame) = fst (write_frame t frame).
Proof.
  destruct (read_frame_view _ _ (write_frame_recv_view t frame)) as [Hr Hi].
  split; [exact Hr|]. split; [exact Hi|].
  unfold write_frame.
  pose proof (write_view _ _ (data frame) (read_frame_send_view t)) as Hw.
  destruct (write (snd (read_frame t)) (data frame)) as [r1 t1],
           (write t (data frame)) as [r2 t2].
  cbn [fst] in Hw. subst r2.
  destruct r1 as [u|exc|]; try reflexivity.
  destruct (is_timeout exc); [reflexivity|].
  destruct (is_OSError exc); [|reflexivity]. now destruct (negb _).
Qed.

Example duplex_run :
  exists tw tr,
    write_frame Scene.duplex Scene.frame = (Ret tt, tw) /\
    read_frame tw = (Ret Scene.frame, tr) /\
    outbound_of tr = data Scene.frame /\ inbound_of tr = [x01].
Proof. eexists _, _. vm_compute. repeat split. Qed.
